(** * enter-the-arena: a bump-pointer arena allocator (arena.h)

    Shallow embedding of the header-only allocator and the properties of
    its specification.

    Conventions of the embedding.
    - [size_t] and [uintptr_t] values are integers of [Z] in the range
      [0 .. SIZE_MAX]; every C operation that can wrap is written with
      [to_size_t].  The target is LP64 (64-bit pointers and sizes,
      [_Alignof(max_align_t) = 16], [sizeof(ArenaBlock) = 24]).
    - The chain of blocks reached from [a->current] through [prev] is a
      list, newest block first; the empty list is the NULL pointer.  Every
      block keeps the address [malloc] returned for it, which is its
      identity for the pointer comparisons of [arena_release].
    - [malloc] is the environment.  Each call is answered by the next
      element of an oracle, a list of proposed addresses ([None] is a
      refusal, and so is an exhausted list); the heap accepts a proposal
      only if the region is non-null, inside the address space and
      disjoint from every live block.
    - An access to a block after [free], and a write outside the data of
      every live block, have no defined behaviour: functions that can
      reach one return an [outcome]. *)

From Stdlib Require Import ZArith List Lia Bool.
From Stdlib Require Import Strings.Byte.
Import ListNotations.
Open Scope Z_scope.

(** ** Platform constants and unsigned arithmetic *)

Definition SIZE_MAX : Z := 2 ^ 64 - 1.
Definition UINTPTR_MAX : Z := 2 ^ 64 - 1.

(** [_Alignof(max_align_t)] *)
Definition MAX_ALIGN : Z := 16.

(** [sizeof(ArenaBlock)]: [prev], [capacity], [offset]; the flexible array
    member [data] starts right after them. *)
Definition SIZEOF_BLOCK : Z := 24.

(** Conversion to [size_t] / [uintptr_t]: reduction modulo [2^64]. *)
Definition to_size_t (z : Z) : Z := z mod 2 ^ 64.

(** ** Data model *)

Record ArenaBlock : Type := mkBlock {
  addr : Z;        (* the pointer value of the block *)
  capacity : Z;
  offset : Z
}.

(** [(uintptr_t)b->data] *)
Definition data (b : ArenaBlock) : Z := addr b + SIZEOF_BLOCK.

Record Arena : Type := mkArena {
  current : list ArenaBlock;
  default_block_size : Z;
  reserved : Z
}.

Record ArenaMark : Type := mkMark {
  block : option Z;     (* address of the marked block, [None] is NULL *)
  mark_offset : Z
}.

(** [Arena a = {0}] *)
Definition arena_zero : Arena := mkArena [] 0 0.

Definition set_offset (b : ArenaBlock) (o : Z) : ArenaBlock :=
  mkBlock (addr b) (capacity b) o.

(** ** Undefined behaviour *)

Inductive outcome (A : Type) : Type :=
| Done (x : A)
| Undefined.
Arguments Done {A} x.
Arguments Undefined {A}.

Definition bind {A B : Type} (o : outcome A) (k : A -> outcome B) : outcome B :=
  match o with
  | Done x => k x
  | Undefined => Undefined
  end.

Notation "x <- o ;; k" := (bind o (fun x => k))
  (at level 61, o at next level, right associativity).

(** The target of a pointer to a block: still allocated, or already
    passed to [free]. *)
Inductive blockref : Type :=
| Live (b : ArenaBlock)
| Freed (b : ArenaBlock).

(** [free(b)] *)
Definition free (r : blockref) : blockref :=
  match r with
  | Live b | Freed b => Freed b
  end.

(** [b->capacity] *)
Definition get_capacity (r : blockref) : outcome Z :=
  match r with
  | Live b => Done (capacity b)
  | Freed _ => Undefined
  end.

(** ** The environment: malloc *)

(** The region [[p, p+n)] does not meet any live block (header and data). *)
Definition region_free (live : list ArenaBlock) (p n : Z) : bool :=
  forallb (fun b => (p + n <=? addr b) || (data b + capacity b <=? p)) live.

(** [malloc(n)] answered by the environment with [answer]. *)
Definition malloc (answer : option Z) (live : list ArenaBlock) (n : Z) : option Z :=
  match answer with
  | None => None
  | Some p =>
      if (0 <? p) && (p + n <=? UINTPTR_MAX) && region_free live p n
      then Some p else None
  end.

(** ** Alignment arithmetic *)

Definition arena__align_up_ptr (p align : Z) : Z :=
  let align := if align =? 0 then MAX_ALIGN else align in
  let rem := p mod align in
  let add := align - rem in
  if p >? UINTPTR_MAX - add then 0 (* overflow *)
  else p + add.

Definition arena__max (a b : Z) : Z := if a >? b then a else b.

(** ** Blocks and initialisation *)

(** The new block has [prev = NULL]; the caller links it. *)
Definition arena__new_block (answer : option Z) (live : list ArenaBlock)
    (capacity : Z) : option ArenaBlock :=
  let capacity := if capacity =? 0 then 1 else capacity in
  if capacity >? SIZE_MAX - SIZEOF_BLOCK then None (* overflow *)
  else
    match malloc answer live (SIZEOF_BLOCK + capacity) with
    | None => None (* allocation failed *)
    | Some p => Some (mkBlock p capacity 0)
    end.

(** [arena_init] overwrites the three fields; blocks the arena held before
    stay allocated but are no longer reachable from it. *)
Definition arena_init (answer : option Z) (a : Arena) (initial_block_size : Z)
    : Arena :=
  let cur := arena__new_block answer (current a) initial_block_size in
  mkArena
    (match cur with Some b => [b] | None => [] end)
    (if initial_block_size =? 0 then 1 else initial_block_size)
    (match cur with Some b => capacity b | None => 0 end).

(** [arena_destroy]: the loop reads [b->prev] and then frees [b], for
    every block of the chain; the three fields are zeroed. *)
Definition arena_destroy (a : Arena) : Arena := mkArena [] 0 0.

(** ** Allocation *)

(** The [for (;;)] loop of [arena_alloc_align]; [b] is always
    [a->current].  Every iteration that does not return calls [malloc]
    once, so the loop is structurally recursive on the oracle.  When a new
    block is needed the parameter [size] is overwritten (the statement
    [size_t min_needed = size = (align ? (align - 1) : 0);]) and the loop
    continues with the new value. *)
Fixpoint alloc_loop (oracle : list (option Z)) (a : Arena) (size align : Z)
    {struct oracle} : option Z * Arena :=
  match current a with
  | [] => (None, a)
  | b :: older =>
      let base := to_size_t (data b + offset b) in
      let aligned := arena__align_up_ptr base align in
      if aligned =? 0 then (None, a)
      else
        let aligned_off := to_size_t (aligned - data b) in
        if (aligned_off <=? capacity b) && (capacity b - aligned_off >=? size)
        then
          (Some aligned,
           mkArena (set_offset b (to_size_t (aligned_off + size)) :: older)
                   (default_block_size a) (reserved a))
        else if negb (align =? 0) && (size >? SIZE_MAX - (align - 1))
        then (None, a) (* overflow *)
        else
          let size := if align =? 0 then 0 else align - 1 in
          let min_needed := size in
          let cap := arena__max (default_block_size a) min_needed in
          match oracle with
          | [] => (None, a) (* allocation failed *)
          | answer :: oracle' =>
              match arena__new_block answer (current a) cap with
              | None => (None, a) (* allocation failed *)
              | Some nb =>
                  alloc_loop oracle'
                    (mkArena (nb :: current a) (default_block_size a)
                             (to_size_t (reserved a + capacity nb)))
                    size align
              end
          end
  end.

Definition arena_alloc_align (oracle : list (option Z)) (a : Arena)
    (size align : Z) : option Z * Arena :=
  if size =? 0 then (None, a)
  else
    match current a with
    | [] =>
        let a1 :=
          arena_init (hd None oracle) a
            (arena__max (default_block_size a)
               (to_size_t (size + (if align =? 0 then 0 else align)))) in
        match current a1 with
        | [] => (None, a1) (* allocation failed *)
        | _ :: _ => alloc_loop (tl oracle) a1 size align
        end
    | _ :: _ => alloc_loop oracle a size align
    end.

Definition arena_alloc (oracle : list (option Z)) (a : Arena) (size : Z)
    : option Z * Arena :=
  arena_alloc_align oracle a size MAX_ALIGN.

(** ** Reset, mark and release *)

(** The loop of [arena_reset], entered with [b = a->current].  The body is
    [prev = b->prev; free(b); a->reserved -= b->capacity; b = prev;]:
    the capacity is read after the block has been freed. *)
Fixpoint reset_loop (b : ArenaBlock) (older : list ArenaBlock) (reserved : Z)
    : outcome (ArenaBlock * Z) :=
  match older with
  | [] => Done (b, reserved)
  | prev :: older' =>
      let r := free (Live b) in
      c <- get_capacity r ;;
      reset_loop prev older' (to_size_t (reserved - c))
  end.

Definition arena_reset (a : Arena) : outcome Arena :=
  match current a with
  | [] => Done a
  | b :: older =>
      (* keep oldest block to avoid malloc thrash *)
      r <- reset_loop b older (reserved a) ;;
      Done (mkArena [set_offset (fst r) 0] (default_block_size a) (snd r))
  end.

Definition arena_mark (a : Arena) : ArenaMark :=
  mkMark
    (match current a with b :: _ => Some (addr b) | [] => None end)
    (match current a with b :: _ => offset b | [] => 0 end).

(** Pointer comparison. *)
Definition ptr_eqb (p q : option Z) : bool :=
  match p, q with
  | Some x, Some y => x =? y
  | None, None => true
  | _, _ => false
  end.

(** The loop of [arena_release].  The body is
    [prev = a->current->prev; a->reserved -= a->current->capacity;
     free(a->current); a->current = prev;]: the capacity is read before
    the block is freed. *)
Fixpoint release_loop (chain : list ArenaBlock) (reserved : Z)
    (target : option Z) : outcome (list ArenaBlock * Z) :=
  match chain with
  | [] => Done ([], reserved)
  | b :: prev =>
      if ptr_eqb (Some (addr b)) target then Done (chain, reserved)
      else
        let r := Live b in
        c <- get_capacity r ;;
        let r := free r in
        release_loop prev (to_size_t (reserved - c)) target
  end.

Definition arena_release (a : Arena) (m : ArenaMark) : outcome Arena :=
  match current a with
  | [] => Done a
  | _ :: _ =>
      r <- release_loop (current a) (reserved a) (block m) ;;
      match fst r with
      | [] => Done (mkArena [] (default_block_size a) (snd r))
      | b :: prev =>
          if ptr_eqb (Some (addr b)) (block m)
          then
            Done (mkArena
                    (set_offset b
                       (if mark_offset m <=? capacity b
                        then mark_offset m else 0) :: prev)
                    (default_block_size a) (snd r))
          else Done (mkArena (b :: prev) (default_block_size a) (snd r))
      end
  end.

(** ** Accounting *)

Definition arena_bytes_reserved (a : Arena) : Z := reserved a.

Definition arena_bytes_used (a : Arena) : Z :=
  fold_left (fun used b => to_size_t (used + offset b)) (current a) 0.

(** ** Memory contents, zero-initialised allocation and strdup *)

Definition memory : Type := Z -> byte.

(** The [n] bytes at [p] lie in the data of one live block. *)
Definition in_live_data (chain : list ArenaBlock) (p n : Z) : bool :=
  existsb (fun b => (data b <=? p) && (p + n <=? data b + capacity b)) chain.

Definition memset (m : memory) (p : Z) (c : byte) (n : Z) : memory :=
  fun q => if (p <=? q) && (q <? p + n) then c else m q.

Fixpoint memcpy (m : memory) (p : Z) (src : list byte) : memory :=
  match src with
  | [] => m
  | c :: rest => memcpy (fun q => if q =? p then c else m q) (p + 1) rest
  end.

Fixpoint load (m : memory) (p : Z) (n : nat) : list byte :=
  match n with
  | O => []
  | S k => m p :: load m (p + 1) k
  end.

(** [strlen] on the bytes found at [s]: the number of bytes before the
    first terminator; reading past the end of the object is undefined. *)
Fixpoint strlen (s : list byte) : outcome Z :=
  match s with
  | [] => Undefined
  | c :: rest =>
      if Byte.eqb c x00 then Done 0
      else n <- strlen rest ;; Done (n + 1)
  end.

Definition arena_zalloc_align (oracle : list (option Z)) (a : Arena)
    (m : memory) (size align : Z) : outcome (option Z * Arena * memory) :=
  let (p, a') := arena_alloc_align oracle a size align in
  match p with
  | None => Done (None, a', m)
  | Some q =>
      if in_live_data (current a') q size
      then Done (Some q, a', memset m q x00 size)
      else Undefined
  end.

Definition arena_strdup (oracle : list (option Z)) (a : Arena) (m : memory)
    (s : list byte) : outcome (option Z * Arena * memory) :=
  len <- strlen s ;;
  let n := to_size_t (len + 1) in
  let (p, a') := arena_alloc_align oracle a n 1 in
  match p with
  | None => Done (None, a', m)
  | Some q =>
      if in_live_data (current a') q n
      then Done (Some q, a', memcpy m q (firstn (Z.to_nat n) s))
      else Undefined
  end.

(** ** Sequences of operations *)

Inductive op : Type :=
| Init (answer : option Z) (initial_block_size : Z)
| Alloc (oracle : list (option Z)) (size align : Z)
| Zalloc (oracle : list (option Z)) (size align : Z)
| Strdup (oracle : list (option Z)) (s : list byte)
| Mark
| Release (m : ArenaMark)
| Reset
| Destroy.

(** One call; arguments are converted to [size_t] at the call. *)
Definition run_op (o : op) (w : Arena * memory) : outcome (Arena * memory) :=
  let (a, m) := w in
  match o with
  | Init answer n => Done (arena_init answer a (to_size_t n), m)
  | Alloc oracle size align =>
      Done (snd (arena_alloc_align oracle a (to_size_t size) (to_size_t align)), m)
  | Zalloc oracle size align =>
      r <- arena_zalloc_align oracle a m (to_size_t size) (to_size_t align) ;;
      Done (snd (fst r), snd r)
  | Strdup oracle s =>
      r <- arena_strdup oracle a m s ;;
      Done (snd (fst r), snd r)
  | Mark => Done (a, m)
  | Release mk =>
      a' <- arena_release a (mkMark (block mk) (to_size_t (mark_offset mk))) ;;
      Done (a', m)
  | Reset => a' <- arena_reset a ;; Done (a', m)
  | Destroy => Done (arena_destroy a, m)
  end.

Fixpoint run (ops : list op) (w : Arena * memory) : outcome (Arena * memory) :=
  match ops with
  | [] => Done w
  | o :: rest => w' <- run_op o w ;; run rest w'
  end.

(** The arithmetic is kept folded by [simpl]. *)
Arguments to_size_t : simpl never.
Arguments arena__align_up_ptr : simpl never.
Arguments arena__max : simpl never.
Arguments SIZE_MAX : simpl never.
Arguments UINTPTR_MAX : simpl never.
Arguments SIZEOF_BLOCK : simpl never.
Arguments MAX_ALIGN : simpl never.
Arguments arena__new_block : simpl never.
Arguments malloc : simpl never.
Arguments ptr_eqb : simpl never.

(** ** Auxiliary definitions for the statements *)

(** The alignment actually used: [align], or [MAX_ALIGN] for [0]. *)
Definition effective_align (align : Z) : Z :=
  if align =? 0 then MAX_ALIGN else align.

(** [Arena a = {0}; arena_init(&a, 64);] with the block placed at 4096. *)
Definition arena_64 : Arena := arena_init (Some 4096) arena_zero 64.

(** [arena_init(&a, 4)], block at 4096. *)
Definition arena_4 : Arena := arena_init (Some 4096) arena_zero 4.

Definition hello : list byte := [x68; x65; x6c; x6c; x6f; x00].

Definition memory_zero : memory := fun _ => x00.

(** The executions of the allocation loop, as a relation: the loop either
    returns at once from [a] (the request fits, or a failure), or links a
    new block and continues with the overwritten size. *)
Inductive loop_run (align : Z) : Arena -> Z -> option Z * Arena -> Prop :=
| loop_fit a b older size aligned :
    current a = b :: older ->
    aligned = arena__align_up_ptr (to_size_t (data b + offset b)) align ->
    aligned <> 0 ->
    to_size_t (aligned - data b) <= capacity b ->
    size <= capacity b - to_size_t (aligned - data b) ->
    loop_run align a size
      (Some aligned,
       mkArena (set_offset b (to_size_t (to_size_t (aligned - data b) + size)) :: older)
               (default_block_size a) (reserved a))
| loop_fail a size :
    loop_run align a size (None, a)
| loop_grow a size answer nb res :
    current a <> [] ->
    arena__new_block answer (current a)
      (arena__max (default_block_size a) (if align =? 0 then 0 else align - 1))
      = Some nb ->
    loop_run align
      (mkArena (nb :: current a) (default_block_size a)
               (to_size_t (reserved a + capacity nb)))
      (if align =? 0 then 0 else align - 1) res ->
    loop_run align a size res.

(** The arena after the [arena_init] call of [arena_alloc_align]. *)
Definition first_init (oracle : list (option Z)) (a : Arena) (size align : Z)
    : Arena :=
  arena_init (hd None oracle) a
    (arena__max (default_block_size a)
       (to_size_t (size + (if align =? 0 then 0 else align)))).

Arguments first_init : simpl never.

(** The paths through [arena_alloc_align]. *)
Inductive alloc_path (oracle : list (option Z)) (a : Arena) (size align : Z)
    : option Z * Arena -> Prop :=
| path_zero :
    size = 0 -> alloc_path oracle a size align (None, a)
| path_init_failed :
    size <> 0 -> current a = [] ->
    current (first_init oracle a size align) = [] ->
    alloc_path oracle a size align (None, first_init oracle a size align)
| path_init res :
    size <> 0 -> current a = [] ->
    current (first_init oracle a size align) <> [] ->
    loop_run align (first_init oracle a size align) size res ->
    alloc_path oracle a size align res
| path_loop res :
    size <> 0 -> current a <> [] ->
    loop_run align a size res ->
    alloc_path oracle a size align res.

(** [reserved] after one [a->reserved -= capacity] per block of [chain]. *)
Definition drop_capacities (chain : list ArenaBlock) (reserved : Z) : Z :=
  fold_left (fun r b => to_size_t (r - capacity b)) chain reserved.

Definition sum_capacity (chain : list ArenaBlock) : Z :=
  fold_right (fun b s => capacity b + s) 0 chain.

Definition sum_offset (chain : list ArenaBlock) : Z :=
  fold_right (fun b s => offset b + s) 0 chain.

(** The Block invariant of the data model. *)
Definition block_ok (b : ArenaBlock) : Prop := 0 <= offset b <= capacity b.

(** The operations that allocate. *)
Definition is_allocation (o : op) : Prop :=
  match o with
  | Alloc _ _ _ | Zalloc _ _ _ | Strdup _ _ => True
  | _ => False
  end.

(** [init(64); allocate(1000, 1)]: an arena of two blocks. *)
Definition arena_two_blocks : Arena :=
  snd (arena_alloc_align [Some 8192] arena_64 1000 1).

(** The chains that still hold the block [b] of a mark: [b] with some
    offset, in front of it blocks with other addresses, behind it the
    blocks that were behind it when the mark was taken. *)
Definition holds_mark (b : ArenaBlock) (older chain : list ArenaBlock) : Prop :=
  exists pre o,
    chain = pre ++ set_offset b o :: older /\
    Forall (fun y => addr y <> addr b) pre.

(** ** The accounting invariant *)

(** A block as [arena__new_block] makes it and the allocation loop keeps
    it: a non-null address, header and data inside the address space, a
    capacity of at least one byte and an offset within the capacity. *)
Definition block_wf (b : ArenaBlock) : Prop :=
  0 < addr b /\
  data b + capacity b <= UINTPTR_MAX /\
  1 <= capacity b /\
  0 <= offset b <= capacity b.

(** Every block of the chain is disjoint from the older ones. *)
Fixpoint chain_disjoint (chain : list ArenaBlock) : Prop :=
  match chain with
  | [] => True
  | b :: rest =>
      region_free rest (addr b) (SIZEOF_BLOCK + capacity b) = true /\
      chain_disjoint rest
  end.

Record arena_inv (a : Arena) : Prop := mk_arena_inv {
  inv_blocks : Forall block_wf (current a);
  inv_disjoint : chain_disjoint (current a);
  inv_reserved : reserved a = sum_capacity (current a)
}.

(** The number of addresses of [[s, t)] that the block [b] occupies. *)
Definition overlap (b : ArenaBlock) (s t : Z) : Z :=
  Z.max 0 (Z.min (data b + capacity b) t - Z.max (addr b) s).

Definition covered (chain : list ArenaBlock) (s t : Z) : Z :=
  fold_right (fun b acc => overlap b s t + acc) 0 chain.

(** ** The typed allocation macros and the demonstration program *)

(** [ARENA_ALLOC(a, T)], given [sizeof(T)] and [_Alignof(T)]. *)
Definition ARENA_ALLOC (oracle : list (option Z)) (a : Arena)
    (sizeof_T alignof_T : Z) : option Z * Arena :=
  arena_alloc_align oracle a sizeof_T alignof_T.

(** [ARENA_ALLOC_N(a, T, n)]: the product [sizeof(T) * (n)] is computed in
    [size_t]. *)
Definition ARENA_ALLOC_N (oracle : list (option Z)) (a : Arena)
    (sizeof_T alignof_T n : Z) : option Z * Arena :=
  arena_alloc_align oracle a (to_size_t (sizeof_T * n)) alignof_T.

(** [ARENA_ZALLOC_N(a, T, n)] *)
Definition ARENA_ZALLOC_N (oracle : list (option Z)) (a : Arena) (m : memory)
    (sizeof_T alignof_T n : Z) : outcome (option Z * Arena * memory) :=
  arena_zalloc_align oracle a m (to_size_t (sizeof_T * n)) alignof_T.

Definition byte_of_Z (z : Z) : byte :=
  match Byte.of_N (Z.to_N (z mod 256)) with
  | Some b => b
  | None => x00
  end.

(** The object representation of a non-negative [int] (4 bytes, least
    significant first). *)
Definition int_bytes (v : Z) : list byte :=
  [byte_of_Z v; byte_of_Z (v / 256); byte_of_Z (v / 65536);
   byte_of_Z (v / 16777216)].

(** [for (; i < i + count; ++i) xs[i] = i;] *)
Fixpoint fill_ints (m : memory) (xs i : Z) (count : nat) : memory :=
  match count with
  | O => m
  | S k => fill_ints (memcpy m (xs + 4 * i) (int_bytes i)) xs (i + 1) k
  end.

(** The string literal ["blah blah blah"], with its terminator. *)
Definition blah : list byte :=
  [x62; x6c; x61; x68; x20; x62; x6c; x61; x68; x20; x62; x6c; x61; x68; x00].

(** [main] of the demonstration program.  The answers of malloc are given
    per call; the result is the pair of numbers that [printf] prints.
    Storing through [xs] when it is NULL or outside the block is
    undefined. *)
Definition main (o_init : option Z) (o_xs o_name o_scratch : list (option Z))
    (m : memory) : outcome (Z * Z) :=
  let a := arena_init o_init arena_zero (64 * 1024) in
  let (xs, a) := ARENA_ALLOC_N o_xs a 4 4 1000 in
  match xs with
  | None => Undefined
  | Some xs =>
      if in_live_data (current a) xs (4 * 1000)
      then
        let m := fill_ints m xs 0 1000 in
        r <- arena_strdup o_name a m blah ;;
        let a := snd (fst r) in
        let mk := arena_mark a in
        let (scratch, a) := ARENA_ALLOC_N o_scratch a 8 8 (2 ^ 20) in
        a <- arena_release a mk ;;
        let printed := (arena_bytes_used a, arena_bytes_reserved a) in
        let a := arena_destroy a in
        Done printed
      else Undefined
  end.

(** * Properties *)

(** ** Unsigned arithmetic *)

Lemma to_size_t_range (z : Z) : 0 <= to_size_t z <= SIZE_MAX.
Proof.
  unfold to_size_t, SIZE_MAX.
  pose proof (Z.mod_pos_bound z (2 ^ 64) ltac:(lia)). lia.
Qed.

Lemma to_size_t_id (z : Z) : 0 <= z <= SIZE_MAX -> to_size_t z = z.
Proof.
  unfold to_size_t, SIZE_MAX. intros H. apply Z.mod_small. lia.
Qed.

Lemma arena__max_spec (a b : Z) : arena__max a b = Z.max a b.
Proof. unfold arena__max. destruct (Z.gtb_spec a b); lia. Qed.

(** ** Alignment arithmetic *)

Lemma effective_align_pos (align : Z) : 0 <= align -> 0 < effective_align align.
Proof.
  unfold effective_align, MAX_ALIGN. destruct (Z.eqb_spec align 0); lia.
Qed.

(** What the function computes: the smallest multiple of the alignment
    that is strictly greater than [p], and [0] when that multiple does not
    fit in [uintptr_t]. *)
Lemma align_up_characterisation (p align : Z) :
  0 <= p -> 0 <= align ->
  let a := effective_align align in
  let next := p + (a - p mod a) in
  next mod a = 0 /\ p < next <= p + a /\
  arena__align_up_ptr p align = (if next >? UINTPTR_MAX then 0 else next).
Proof.
  intros Hp Ha a next.
  assert (Hpos : 0 < a) by (apply effective_align_pos; assumption).
  pose proof (Z.mod_pos_bound p a Hpos) as Hm.
  repeat split; try (subst next; lia).
  - subst next.
    pose proof (Z.div_mod p a ltac:(lia)) as Hd.
    replace (p + (a - p mod a)) with ((p / a + 1) * a) by lia.
    apply Z.mod_mul. lia.
  - unfold arena__align_up_ptr. fold (effective_align align). fold a.
    subst next.
    destruct (Z.gtb_spec p (UINTPTR_MAX - (a - p mod a)));
      destruct (Z.gtb_spec (p + (a - p mod a)) UINTPTR_MAX); lia.
Qed.

(** C2, at an address that is already aligned: [p = 16] is a multiple of
    [8], the smallest multiple of [8] that is at least [16] is [16], and
    the function returns [24]. *)
Theorem align_up_of_aligned_address :
  16 mod 8 = 0 /\ arena__align_up_ptr 16 8 = 24.
Proof. split; reflexivity. Qed.

(** ** Allocation on a concrete arena *)

(** C1, Scenario B: after [init(64)], [allocate(1000, 1)] does not fit in
    the block of 64 bytes; the block that is created has capacity 64, not
    at least 1000, [reserved] grows by 64, and the new block's offset
    advances to 1: the returned address is followed by 63 bytes of the
    block, and none of them is accounted to the request. *)
Theorem alloc_1000_after_init_64 :
  arena_64 = mkArena [mkBlock 4096 64 0] 64 64 /\
  arena_alloc_align [Some 8192] arena_64 1000 1 =
    (Some 8217,
     mkArena [mkBlock 8192 64 1; mkBlock 4096 64 0] 64 128).
Proof. split; reflexivity. Qed.

(** C7: [allocate(0, align)] returns NULL and the arena is the one it was
    given, whatever the arena, the alignment and the answers of malloc;
    the two accounting functions read the same values. *)
Theorem alloc_zero_size_is_noop (oracle : list (option Z)) (a : Arena) (align : Z) :
  arena_alloc_align oracle a 0 align = (None, a) /\
  arena_bytes_used (snd (arena_alloc_align oracle a 0 align)) = arena_bytes_used a /\
  arena_bytes_reserved (snd (arena_alloc_align oracle a 0 align)) =
    arena_bytes_reserved a.
Proof. repeat split; reflexivity. Qed.

(** ** The allocation loop *)

(** One iteration of the loop. *)
Lemma alloc_loop_eq (oracle : list (option Z)) (a : Arena) (size align : Z) :
  alloc_loop oracle a size align =
  match current a with
  | [] => (None, a)
  | b :: older =>
      let aligned := arena__align_up_ptr (to_size_t (data b + offset b)) align in
      if aligned =? 0 then (None, a)
      else
        let aligned_off := to_size_t (aligned - data b) in
        if (aligned_off <=? capacity b) && (capacity b - aligned_off >=? size)
        then
          (Some aligned,
           mkArena (set_offset b (to_size_t (aligned_off + size)) :: older)
                   (default_block_size a) (reserved a))
        else if negb (align =? 0) && (size >? SIZE_MAX - (align - 1))
        then (None, a)
        else
          match oracle with
          | [] => (None, a)
          | answer :: oracle' =>
              match arena__new_block answer (current a)
                      (arena__max (default_block_size a)
                         (if align =? 0 then 0 else align - 1)) with
              | None => (None, a)
              | Some nb =>
                  alloc_loop oracle'
                    (mkArena (nb :: current a) (default_block_size a)
                             (to_size_t (reserved a + capacity nb)))
                    (if align =? 0 then 0 else align - 1) align
              end
          end
  end.
Proof. destruct oracle; reflexivity. Qed.

Lemma alloc_loop_run (oracle : list (option Z)) (align : Z) :
  forall a size, loop_run align a size (alloc_loop oracle a size align).
Proof.
  induction oracle as [| answer oracle IH]; intros a size;
    rewrite alloc_loop_eq;
    (destruct (current a) as [| b older] eqn:Hc; [apply loop_fail |]);
    cbv zeta;
    (destruct (_ =? 0) eqn:Hz; [apply loop_fail |]);
    (destruct (_ && _) eqn:Hfit;
     [ apply andb_true_iff in Hfit as [H1 H2];
       apply Z.leb_le in H1; apply Z.geb_le in H2; apply Z.eqb_neq in Hz;
       eapply loop_fit; eauto
     | ]);
    (destruct (negb _ && _); [apply loop_fail |]).
  - apply loop_fail.
  - destruct (arena__new_block answer (b :: older) _) as [nb |] eqn:Hnb;
      [| apply loop_fail].
    eapply loop_grow with (answer := answer) (nb := nb).
    + rewrite Hc. discriminate.
    + rewrite Hc. exact Hnb.
    + rewrite Hc. apply IH.
Qed.

Lemma new_block_offset answer live cap nb :
  arena__new_block answer live cap = Some nb -> offset nb = 0.
Proof.
  unfold arena__new_block. destruct (_ >? _); [discriminate |].
  destruct (malloc _ _ _); [| discriminate].
  intros H. injection H as <-. reflexivity.
Qed.

Lemma new_block_capacity answer live cap nb :
  arena__new_block answer live cap = Some nb ->
  capacity nb = (if cap =? 0 then 1 else cap) /\
  capacity nb <= SIZE_MAX - SIZEOF_BLOCK /\
  malloc answer live (SIZEOF_BLOCK + capacity nb) = Some (addr nb).
Proof.
  unfold arena__new_block.
  destruct (Z.gtb_spec (if cap =? 0 then 1 else cap) (SIZE_MAX - SIZEOF_BLOCK))
    as [Hgt | Hle]; [discriminate |].
  destruct (malloc _ _ _) eqn:Hm; [| discriminate].
  intros Heq. injection Heq as <-. simpl. auto.
Qed.

(** The loop never writes [default_block_size]. *)
Lemma loop_run_default align a size res :
  loop_run align a size res ->
  default_block_size (snd res) = default_block_size a.
Proof. induction 1; simpl in *; auto. Qed.



Lemma arena_alloc_align_path (oracle : list (option Z)) (a : Arena) (size align : Z) :
  alloc_path oracle a size align (arena_alloc_align oracle a size align).
Proof.
  unfold arena_alloc_align.
  destruct (Z.eqb_spec size 0) as [-> | Hs]; [apply path_zero; reflexivity |].
  destruct (current a) as [| b older] eqn:Hc.
  - fold (first_init oracle a size align).
    destruct (current (first_init oracle a size align)) as [| b1 rest] eqn:Hc1.
    + apply path_init_failed; assumption.
    + apply path_init; try assumption.
      * rewrite Hc1. discriminate.
      * apply alloc_loop_run.
  - apply path_loop; try assumption.
    + rewrite Hc. discriminate.
    + apply alloc_loop_run.
Qed.


(** ** Failure of an allocation *)




(** ** Allocation on an arena without a current block *)

(** C10, as stated, fails on two inputs.  For a request of size 0 the call
    returns before [arena_init], and [default_block_size] keeps its value
    (0 here) instead of becoming [max(0, 0 + 8) = 8].  For
    [size = 2^64 - 8] and [align = 8] the sum wraps to 0, [arena_init] is
    called with [max(0, 0) = 0] and stores 1. *)
Lemma alloc_without_current_default_differs :
  current arena_zero = [] /\
  default_block_size (snd (arena_alloc_align [Some 4096] arena_zero 0 8)) <>
    arena__max (default_block_size arena_zero) (to_size_t (0 + 8)) /\
  default_block_size (snd (arena_alloc_align [None] arena_zero (2 ^ 64 - 8) 8)) <>
    arena__max (default_block_size arena_zero) (to_size_t (2 ^ 64 - 8 + 8)).
Proof. repeat split; vm_compute; discriminate. Qed.

(** C10, amended: for a request of non-zero size on an arena without a
    current block, [default_block_size] is overwritten with
    [v = max(default_block_size, size + align)] (the sum reduced modulo
    [2^64]), or with 1 when [v] is 0, whatever malloc answers; when the
    first block cannot be created the call returns NULL from the arena
    [{NULL, v or 1, 0}]. *)
Theorem alloc_without_current_overwrites_default
    (oracle : list (option Z)) (a : Arena) (size align : Z) :
  current a = [] -> size <> 0 ->
  let v := arena__max (default_block_size a) (to_size_t (size + align)) in
  default_block_size (snd (arena_alloc_align oracle a size align)) =
    (if v =? 0 then 1 else v) /\
  (arena__new_block (hd None oracle) [] v = None ->
   arena_alloc_align oracle a size align =
     (None, mkArena [] (if v =? 0 then 1 else v) 0)).
Proof.
  intros Hc Hs v.
  assert (Hv : arena__max (default_block_size a)
                 (to_size_t (size + (if align =? 0 then 0 else align))) = v).
  { subst v. destruct (Z.eqb_spec align 0) as [-> |]; [| reflexivity].
    rewrite Z.add_0_r. reflexivity. }
  unfold arena_alloc_align. apply Z.eqb_neq in Hs. rewrite Hs, Hc, Hv.
  unfold arena_init. rewrite Hc. simpl.
  destruct (arena__new_block (hd None oracle) [] v) as [nb |] eqn:Hnb; simpl.
  - split; [| discriminate].
    rewrite (loop_run_default align _ _ _ (alloc_loop_run (tl oracle) align _ size)).
    reflexivity.
  - split; reflexivity.
Qed.

Lemma alloc_without_current_overwrites_default_witness :
  default_block_size (snd (arena_alloc_align [None] arena_zero 10 8)) = 18 /\
  arena_alloc_align [None] arena_zero 10 8 = (None, mkArena [] 18 0).
Proof.
  pose proof (alloc_without_current_overwrites_default [None] arena_zero 10 8
                eq_refl ltac:(discriminate)) as [H1 H2].
  split; [exact H1 | exact (H2 eq_refl)].
Defined.

(** ** Release *)

Lemma ptr_eqb_eq (p q : option Z) : ptr_eqb p q = true <-> p = q.
Proof.
  destruct p as [x |], q as [y |]; unfold ptr_eqb; split; intros H;
    try discriminate; try reflexivity.
  - apply Z.eqb_eq in H. congruence.
  - injection H as ->. apply Z.eqb_refl.
Qed.

Lemma ptr_eqb_neq (p q : option Z) : ptr_eqb p q = false <-> p <> q.
Proof.
  rewrite <- ptr_eqb_eq. destruct (ptr_eqb p q); split; congruence.
Qed.

(** The loop frees the blocks in front of the first one whose address is
    the target, and stops there. *)
Lemma release_loop_prefix (pre rest : list ArenaBlock) (target : option Z) :
  Forall (fun b => Some (addr b) <> target) pre ->
  match rest with
  | [] => True
  | b :: _ => Some (addr b) = target
  end ->
  forall reserved,
    release_loop (pre ++ rest) reserved target =
      Done (rest, drop_capacities pre reserved).
Proof.
  intros Hpre Hrest.
  induction Hpre as [| y pre Hy _ IH]; intros reserved.
  - simpl. destruct rest as [| b rest']; [reflexivity |].
    simpl. apply ptr_eqb_eq in Hrest. rewrite Hrest. reflexivity.
  - simpl. apply ptr_eqb_neq in Hy. rewrite Hy. simpl. apply IH.
Qed.

(** C8: when no block of the chain has the address held by the mark,
    [arena_release] is defined and returns the arena with no current
    block; no offset is written, [default_block_size] is kept and
    [reserved] has been decremented once by the capacity of every block
    of the chain, all of which were freed. *)
Theorem release_of_stale_mark (a : Arena) (m : ArenaMark) :
  (forall b, In b (current a) -> Some (addr b) <> block m) ->
  arena_release a m =
    Done (mkArena [] (default_block_size a)
            (drop_capacities (current a) (reserved a))).
Proof.
  intros Hstale. unfold arena_release.
  destruct (current a) as [| b older] eqn:Hc.
  - destruct a as [c d r]. simpl in *. subst c. reflexivity.
  - pose proof (release_loop_prefix (b :: older) [] (block m)) as Hloop.
    rewrite app_nil_r in Hloop. rewrite Hloop; [reflexivity | | exact I].
    apply Forall_forall. exact Hstale.
Qed.

(** C8 on the arena of two blocks, with a mark on a block at 12288 that is
    not in the chain: both blocks are freed and [reserved] falls from 128
    to 0. *)
Lemma release_of_stale_mark_witness :
  arena_release arena_two_blocks (mkMark (Some 12288) 5) = Done (mkArena [] 64 0).
Proof.
  rewrite (release_of_stale_mark arena_two_blocks (mkMark (Some 12288) 5)).
  - reflexivity.
  - intros b Hin. simpl in Hin.
    destruct Hin as [<- | [<- | []]]; simpl; discriminate.
Defined.

(** The decrements add up, as long as [reserved] is a [size_t]. *)
Lemma drop_capacities_sum (chain : list ArenaBlock) (reserved : Z) :
  0 <= reserved <= SIZE_MAX ->
  drop_capacities chain reserved = to_size_t (reserved - sum_capacity chain).
Proof.
  unfold drop_capacities. revert reserved.
  induction chain as [| b chain IH]; intros reserved Hr; simpl.
  - rewrite Z.sub_0_r. symmetry. apply to_size_t_id. exact Hr.
  - rewrite IH by apply to_size_t_range.
    unfold to_size_t. rewrite Zminus_mod_idemp_l. f_equal. lia.
Qed.

(** ** Mark and release around allocations *)

Lemma region_free_fresh (live : list ArenaBlock) (p n : Z) (b : ArenaBlock) :
  region_free live p n = true -> In b live ->
  0 <= capacity b -> 0 < n -> p <> addr b.
Proof.
  unfold region_free. intros Hfree Hin Hcap Hn.
  rewrite forallb_forall in Hfree. specialize (Hfree b Hin).
  apply orb_true_iff in Hfree. unfold data, SIZEOF_BLOCK in Hfree.
  destruct Hfree as [H | H]; apply Z.leb_le in H; lia.
Qed.

Lemma malloc_some (answer : option Z) (live : list ArenaBlock) (n p : Z) :
  malloc answer live n = Some p ->
  0 < p /\ p + n <= UINTPTR_MAX /\ region_free live p n = true.
Proof.
  unfold malloc. destruct answer as [q |]; [| discriminate].
  destruct (_ && _) eqn:Hok; [| discriminate].
  intros Heq. injection Heq as ->.
  apply andb_true_iff in Hok as [Hok Hfree].
  apply andb_true_iff in Hok as [Hpos Hend].
  apply Z.ltb_lt in Hpos. apply Z.leb_le in Hend. auto.
Qed.

(** A block obtained for a non-negative requested capacity has an address
    that no live block has. *)
Lemma new_block_fresh answer live cap nb b :
  arena__new_block answer live cap = Some nb ->
  0 <= cap -> In b live -> 0 <= capacity b ->
  addr nb <> addr b.
Proof.
  intros Hnb Hcap Hin Hb.
  destruct (new_block_capacity _ _ _ _ Hnb) as (Hc & _ & Hm).
  apply malloc_some in Hm as (_ & _ & Hfree).
  apply (region_free_fresh live (addr nb) (SIZEOF_BLOCK + capacity nb) b);
    try assumption.
  unfold SIZEOF_BLOCK. rewrite Hc. clear Hc Hfree Hnb.
  destruct (Z.eqb_spec cap 0) as [-> | Hnz]; lia.
Qed.

Lemma holds_mark_head b older chain :
  holds_mark b older chain ->
  exists hd rest, chain = hd :: rest /\
    forall o, holds_mark b older (set_offset hd o :: rest).
Proof.
  intros (pre & o & -> & Hpre).
  destruct pre as [| y pre].
  - exists (set_offset b o), older. split; [reflexivity |].
    intros o'. exists [], o'. split; [reflexivity | constructor].
  - exists y, (pre ++ set_offset b o :: older). split; [reflexivity |].
    intros o'. exists (set_offset y o' :: pre), o. split; [reflexivity |].
    inversion Hpre; subst. constructor; assumption.
Qed.

(** The allocation loop keeps the marked block in the chain. *)
Lemma loop_run_holds_mark align a size res b older :
  loop_run align a size res ->
  0 <= align -> 0 <= capacity b ->
  holds_mark b older (current a) ->
  holds_mark b older (current (snd res)).
Proof.
  intros Hrun Hal Hcap.
  induction Hrun as [a hd rest size aligned Hc Haligned Hnz H1 H2
                    | a size
                    | a size answer nb res Hne Hnb Hrun IH]; intros Hm.
  - destruct (holds_mark_head _ _ _ Hm) as (hd' & rest' & Heq & Hset).
    rewrite Hc in Heq. injection Heq as <- <-. apply Hset.
  - exact Hm.
  - apply IH. simpl.
    destruct Hm as (pre & o & Hchain & Hpre).
    exists (nb :: pre), o. split; [rewrite Hchain; reflexivity |].
    constructor; [| exact Hpre].
    apply (new_block_fresh _ _ _ _ (set_offset b o) Hnb).
    + rewrite arena__max_spec. destruct (Z.eqb_spec align 0); lia.
    + rewrite Hchain. apply in_or_app. right. left. reflexivity.
    + exact Hcap.
Qed.

Lemma alloc_holds_mark oracle a size align b older :
  0 <= align -> 0 <= capacity b ->
  holds_mark b older (current a) ->
  holds_mark b older (current (snd (arena_alloc_align oracle a size align))).
Proof.
  intros Hal Hcap Hm.
  destruct (arena_alloc_align_path oracle a size align)
    as [Hs | Hs Hc Hc1 | res Hs Hc Hc1 Hrun | res Hs Hc Hrun].
  - exact Hm.
  - destruct Hm as (pre & o & Hchain & _). rewrite Hc in Hchain.
    destruct pre; discriminate.
  - destruct Hm as (pre & o & Hchain & _). rewrite Hc in Hchain.
    destruct pre; discriminate.
  - eapply loop_run_holds_mark; eassumption.
Qed.

Lemma zalloc_arena oracle a m size align r :
  arena_zalloc_align oracle a m size align = Done r ->
  fst r = arena_alloc_align oracle a size align.
Proof.
  unfold arena_zalloc_align.
  destruct (arena_alloc_align oracle a size align) as [[q |] a'].
  - destruct (in_live_data _ _ _); [| discriminate].
    intros H. injection H as <-. reflexivity.
  - intros H. injection H as <-. reflexivity.
Qed.

Lemma strdup_arena oracle a m s r :
  arena_strdup oracle a m s = Done r ->
  exists n, 0 <= n /\ fst r = arena_alloc_align oracle a n 1.
Proof.
  unfold arena_strdup. destruct (strlen s) as [len |]; [| discriminate].
  simpl. exists (to_size_t (len + 1)).
  split; [apply to_size_t_range |].
  destruct (arena_alloc_align oracle a (to_size_t (len + 1)) 1) as [[q |] a'].
  - destruct (in_live_data _ _ _); [| discriminate].
    injection H as <-. reflexivity.
  - injection H as <-. reflexivity.
Qed.

(** Each allocating operation, when defined, leaves the arena that
    [arena_alloc_align] leaves for some non-negative alignment. *)
Lemma allocation_op_arena o a m a' m' :
  is_allocation o -> run_op o (a, m) = Done (a', m') ->
  exists oracle size align,
    0 <= align /\ a' = snd (arena_alloc_align oracle a size align).
Proof.
  intros Hop Hrun. destruct o; try contradiction; simpl in Hrun.
  - injection Hrun as <- <-. do 3 eexists.
    split; [| reflexivity]. apply to_size_t_range.
  - destruct (arena_zalloc_align _ _ _ _ _) as [r |] eqn:Hz; [| discriminate].
    simpl in Hrun. injection Hrun as <- <-.
    apply zalloc_arena in Hz. do 3 eexists.
    split; [| rewrite <- Hz; reflexivity]. apply to_size_t_range.
  - destruct (arena_strdup _ _ _ _) as [r |] eqn:Hz; [| discriminate].
    simpl in Hrun. injection Hrun as <- <-.
    apply strdup_arena in Hz as (n & _ & Hz). do 3 eexists.
    split; [| rewrite <- Hz; reflexivity]. lia.
Qed.

Lemma run_allocations_hold_mark b older ops :
  0 <= capacity b ->
  forall a m a' m',
    Forall is_allocation ops ->
    run ops (a, m) = Done (a', m') ->
    holds_mark b older (current a) ->
    holds_mark b older (current a').
Proof.
  intros Hcap.
  induction ops as [| o ops IH]; intros a m a' m' Hops Hrun Hm.
  - injection Hrun as <- <-. exact Hm.
  - inversion Hops as [| ? ? Ho Hrest]; subst.
    cbn [run] in Hrun.
    destruct (run_op o (a, m)) as [[a1 m1] |] eqn:Hstep; [| discriminate].
    cbn [bind] in Hrun.
    destruct (allocation_op_arena _ _ _ _ _ Ho Hstep)
      as (oracle & size & align & Hal & ->).
    eapply IH; try eassumption.
    apply alloc_holds_mark; assumption.
Qed.

Lemma set_offset_same (b : ArenaBlock) (o : Z) :
  set_offset (set_offset b o) (offset b) = b.
Proof. destruct b. reflexivity. Qed.

(** C4: a mark is taken on an arena whose blocks satisfy the Block
    invariant; any sequence of allocating calls follows ([arena_alloc_align],
    [arena_zalloc_align], [arena_strdup], whether they succeed or not, with
    no reset); then [arena_release] with the mark is defined and leaves
    the chain the mark was taken on: [bytes_used] has the value it had at
    the mark, and the current block is the marked block with the captured
    offset. *)
Theorem mark_release_restores_usage
    (a : Arena) (m : memory) (ops : list op) (a' : Arena) (m' : memory) :
  Forall block_ok (current a) ->
  Forall is_allocation ops ->
  run ops (a, m) = Done (a', m') ->
  exists a'',
    arena_release a' (arena_mark a) = Done a'' /\
    arena_bytes_used a'' = arena_bytes_used a /\
    current a'' = current a /\
    match current a, current a'' with
    | b :: _, b'' :: _ => addr b'' = addr b /\ offset b'' = mark_offset (arena_mark a)
    | [], [] => True
    | _, _ => False
    end.
Proof.
  intros Hok Hops Hrun.
  assert (Hrel : exists a'',
             arena_release a' (arena_mark a) = Done a'' /\
             current a'' = current a).
  { unfold arena_release, arena_mark.
    destruct (current a) as [| b older] eqn:Hc.
    - (* the mark holds NULL: every block is freed *)
      destruct (current a') as [| b' older'] eqn:Hc'.
      + exists a'. auto.
      + pose proof (release_loop_prefix (b' :: older') [] None) as Hloop.
        rewrite app_nil_r in Hloop. cbn [block].
        rewrite Hloop; [| apply Forall_forall; intros; discriminate | exact I].
        eexists. split; reflexivity.
    - inversion Hok as [| ? ? Hb _]; subst.
      assert (Hm : holds_mark b older (current a')).
      { eapply run_allocations_hold_mark; try eassumption.
        - unfold block_ok in Hb. lia.
        - rewrite Hc. exists [], (offset b). destruct b.
          split; [reflexivity | constructor]. }
      destruct Hm as (pre & o & Hchain & Hpre).
      rewrite Hchain. cbn [block mark_offset].
      destruct (pre ++ set_offset b o :: older) as [| x xs] eqn:Hx;
        [destruct pre; discriminate |].
      rewrite <- Hx.
      rewrite (release_loop_prefix pre (set_offset b o :: older) (Some (addr b)));
        [| | reflexivity].
      + cbn [bind fst snd].
        replace (ptr_eqb (Some (addr (set_offset b o))) (Some (addr b)))
          with true by (symmetry; apply ptr_eqb_eq; reflexivity).
        cbn [set_offset capacity].
        destruct (Z.leb_spec (offset b) (capacity b)) as [_ | Hlt];
          [| unfold block_ok in Hb; lia].
        eexists. split; [reflexivity |]. cbn [current].
        fold (set_offset (set_offset b o) (offset b)).
        rewrite set_offset_same. reflexivity.
      + eapply Forall_impl; [| exact Hpre]. cbn beta. congruence. }
  destruct Hrel as (a'' & Hrel & Hcur).
  exists a''. split; [exact Hrel |]. split; [| split; [exact Hcur |]].
  - unfold arena_bytes_used. rewrite Hcur. reflexivity.
  - rewrite Hcur. unfold arena_mark. destruct (current a); auto.
Qed.

(** C4 on [arena_64]: the mark is taken, [allocate(1000, 1)] links a
    second block at 8192, a string is duplicated into it, and the release
    frees that block and restores the offset 0 of the first one. *)
Lemma mark_release_restores_usage_witness :
  exists a'',
    arena_release
      (mkArena [mkBlock 8192 64 8; mkBlock 4096 64 0] 64 128)
      (arena_mark arena_64) = Done a'' /\
    arena_bytes_used a'' = arena_bytes_used arena_64 /\
    current a'' = current arena_64 /\
    match current arena_64, current a'' with
    | b :: _, b'' :: _ =>
        addr b'' = addr b /\ offset b'' = mark_offset (arena_mark arena_64)
    | [], [] => True
    | _, _ => False
    end.
Proof.
  apply (mark_release_restores_usage arena_64 memory_zero
           [Alloc [Some 8192] 1000 1; Strdup [] hello]
           (mkArena [mkBlock 8192 64 8; mkBlock 4096 64 0] 64 128)
           (memcpy memory_zero 8218 hello)).
  - repeat constructor; vm_compute; discriminate.
  - repeat constructor.
  - reflexivity.
Defined.

(** ** Reset *)

(** With one block in the chain the loop of [arena_reset] is not entered:
    the block is kept, its offset becomes 0 and [reserved] is not
    written. *)
Lemma reset_single_block (b : ArenaBlock) (d r : Z) :
  arena_reset (mkArena [b] d r) = Done (mkArena [set_offset b 0] d r).
Proof. reflexivity. Qed.

(** With two blocks or more the first iteration frees the current block
    and then reads its capacity. *)
Lemma reset_two_blocks_undefined (b prev : ArenaBlock) (older : list ArenaBlock)
    (d r : Z) :
  arena_reset (mkArena (b :: prev :: older) d r) = Undefined.
Proof. reflexivity. Qed.

(** C5, on the arena of two blocks that [init(64); allocate(1000, 1)]
    builds: [arena_reset] frees the newer block and then reads
    [b->capacity] from it to decrement [reserved]; the call has no defined
    result, where the claim has [reserved] equal to 64, the capacity of the
    block that is kept. *)
Theorem reset_reads_freed_block :
  arena_two_blocks = mkArena [mkBlock 8192 64 1; mkBlock 4096 64 0] 64 128 /\
  arena_reset arena_two_blocks = Undefined.
Proof. split; reflexivity. Qed.

(** C6, on the sequence [init(64); allocate(1000, 1); reset()] from the
    zero-valued arena: the reset reads the capacity of a freed block, so
    the run has no defined final state in which [reserved] would be the
    sum of the capacities. *)
Theorem run_init_alloc_reset_undefined (m : memory) :
  run [Init (Some 4096) 64; Alloc [Some 8192] 1000 1; Reset] (arena_zero, m)
    = Undefined.
Proof. reflexivity. Qed.

(** ** String duplication *)

(** C9, on [init(4); strdup("hello")]: the 6 bytes do not fit in the block
    of 4, the new block has capacity 4 and the request continues with size
    0, so the call returns the address 8217 with 3 bytes of the block left
    behind it; [memcpy] then writes 6 bytes there. *)
Theorem strdup_hello_after_init_4 :
  strlen hello = Done 5 /\
  arena_alloc_align [Some 8192] arena_4 6 1 =
    (Some 8217, mkArena [mkBlock 8192 4 1; mkBlock 4096 4 0] 4 8) /\
  in_live_data [mkBlock 8192 4 1; mkBlock 4096 4 0] 8217 6 = false /\
  (forall m, arena_strdup [Some 8192] arena_4 m hello = Undefined).
Proof. repeat split. Qed.

(** When the string fits in the current block the copy reads back. *)
Lemma load_memcpy (src : list byte) :
  forall (m : memory) (p : Z), load (memcpy m p src) p (length src) = src.
Proof.
  assert (Hfar : forall src (m : memory) p q,
             q < p -> memcpy m p src q = m q).
  { clear src. induction src as [| c rest IH]; intros m p q Hq; simpl.
    - reflexivity.
    - rewrite IH by lia. destruct (Z.eqb_spec q p); [lia | reflexivity]. }
  induction src as [| c rest IH]; intros m p; simpl.
  - reflexivity.
  - rewrite IH. rewrite Hfar by lia. rewrite Z.eqb_refl. reflexivity.
Qed.

Lemma strlen_bound (s : list byte) (len : Z) :
  strlen s = Done len -> 0 <= len < Z.of_nat (length s).
Proof.
  revert len. induction s as [| c rest IH]; intros len; simpl.
  - discriminate.
  - destruct (Byte.eqb c x00).
    + intros H. injection H as <-. lia.
    + destruct (strlen rest) as [n |]; [| discriminate].
      simpl. intros H. injection H as <-. specialize (IH n eq_refl). lia.
Qed.

(** Whenever [arena_strdup] is defined and returns an address, the bytes
    read back there are the string with its terminator. *)
Lemma strdup_reads_back oracle a m s q a' m' len :
  strlen s = Done len ->
  len + 1 <= SIZE_MAX ->
  arena_strdup oracle a m s = Done (Some q, a', m') ->
  load m' q (Z.to_nat (len + 1)) = firstn (Z.to_nat (len + 1)) s.
Proof.
  intros Hlen Hsmall. unfold arena_strdup. rewrite Hlen. cbn [bind].
  pose proof (strlen_bound _ _ Hlen) as Hb.
  rewrite (to_size_t_id (len + 1)) by lia.
  destruct (arena_alloc_align oracle a (len + 1) 1) as [[p |] a1];
    [| discriminate].
  destruct (in_live_data _ _ _); [| discriminate].
  intros H. injection H as <- <- <-.
  set (src := firstn (Z.to_nat (len + 1)) s).
  replace (Z.to_nat (len + 1)) with (length src).
  - apply load_memcpy.
  - subst src. rewrite length_firstn. lia.
Qed.

(** ** Disjoint blocks fit in the address space *)

Lemma region_free_spec (live : list ArenaBlock) (p n : Z) :
  region_free live p n = true <->
  Forall (fun x => p + n <= addr x \/ data x + capacity x <= p) live.
Proof.
  unfold region_free. rewrite forallb_forall, Forall_forall.
  split; intros H x Hin; specialize (H x Hin).
  - apply orb_true_iff in H. destruct H as [H | H]; apply Z.leb_le in H; auto.
  - apply orb_true_iff. destruct H as [H | H]; apply Z.leb_le in H; auto.
Qed.

(** Blocks that do not meet [[lo, hi)] occupy, in [[s, t)], what they
    occupy before [lo] and after [hi]. *)
Lemma covered_split (rest : list ArenaBlock) (lo hi s t : Z) :
  Forall (fun x => hi <= addr x \/ data x + capacity x <= lo) rest ->
  Forall (fun x => 0 <= capacity x) rest ->
  lo <= hi -> s <= t ->
  covered rest s t =
    covered rest s (Z.max s (Z.min lo t)) + covered rest (Z.max s (Z.min hi t)) t.
Proof.
  intros Hfree Hcap Hlh Hst.
  induction Hfree as [| x rest Hx _ IH]; simpl.
  - reflexivity.
  - inversion Hcap as [| ? ? Hcx Hcrest]; subst.
    rewrite (IH Hcrest). unfold overlap, data, SIZEOF_BLOCK in *. lia.
Qed.

Lemma covered_bound (chain : list ArenaBlock) :
  chain_disjoint chain ->
  Forall (fun x => 0 <= capacity x) chain ->
  forall s t, s <= t -> covered chain s t <= t - s.
Proof.
  induction chain as [| b rest IH]; intros Hdis Hcap s t Hst; simpl.
  - lia.
  - destruct Hdis as [Hfree Hdis].
    inversion Hcap as [| ? ? Hcb Hcrest]; subst.
    apply region_free_spec in Hfree.
    rewrite (covered_split rest (addr b) (data b + capacity b) s t);
      try assumption.
    + pose proof (IH Hdis Hcrest s (Z.max s (Z.min (addr b) t)) ltac:(lia)).
      pose proof (IH Hdis Hcrest (Z.max s (Z.min (data b + capacity b) t)) t
                    ltac:(lia)).
      unfold overlap, data, SIZEOF_BLOCK in *. lia.
    + eapply Forall_impl; [| exact Hfree]. cbn beta. intros x Hx.
      unfold data, SIZEOF_BLOCK in *. lia.
    + unfold data, SIZEOF_BLOCK. lia.
Qed.

Lemma covered_whole (chain : list ArenaBlock) :
  Forall block_wf chain ->
  covered chain 0 UINTPTR_MAX =
    sum_capacity chain + SIZEOF_BLOCK * Z.of_nat (length chain).
Proof.
  induction 1 as [| b rest Hb _ IH].
  - reflexivity.
  - cbn [covered fold_right sum_capacity length].
    fold (covered rest 0 UINTPTR_MAX). fold (sum_capacity rest).
    rewrite IH. destruct Hb as (Ha & Hend & Hc & Ho).
    unfold overlap, data, SIZEOF_BLOCK in *. lia.
Qed.

Lemma block_wf_capacity (chain : list ArenaBlock) :
  Forall block_wf chain -> Forall (fun x => 0 <= capacity x) chain.
Proof.
  apply Forall_impl. intros b (_ & _ & Hc & _). lia.
Qed.

(** The capacities of a well-formed chain add up to a [size_t]. *)
Lemma sum_capacity_range (chain : list ArenaBlock) :
  Forall block_wf chain -> chain_disjoint chain ->
  0 <= sum_capacity chain <= SIZE_MAX.
Proof.
  intros Hwf Hdis.
  pose proof (covered_bound chain Hdis (block_wf_capacity _ Hwf) 0 UINTPTR_MAX
                ltac:(unfold UINTPTR_MAX; lia)) as Hb.
  rewrite (covered_whole _ Hwf) in Hb.
  assert (0 <= sum_capacity chain).
  { clear Hb Hdis. induction Hwf as [| b rest (_ & _ & Hc & _) _ IH]; simpl; lia. }
  unfold SIZE_MAX, UINTPTR_MAX, SIZEOF_BLOCK in *. lia.
Qed.

Lemma sum_offset_le_capacity (chain : list ArenaBlock) :
  Forall block_wf chain -> 0 <= sum_offset chain <= sum_capacity chain.
Proof.
  induction 1 as [| b rest (_ & _ & _ & Ho) _ IH]; simpl; lia.
Qed.

Lemma used_fold_sum (chain : list ArenaBlock) :
  Forall block_wf chain ->
  forall acc, 0 <= acc -> acc + sum_offset chain <= SIZE_MAX ->
  fold_left (fun used b => to_size_t (used + offset b)) chain acc =
    acc + sum_offset chain.
Proof.
  induction 1 as [| b rest Hb Hrest IH]; intros acc Hacc Hsum; simpl in *.
  - lia.
  - pose proof (sum_offset_le_capacity _ Hrest).
    destruct Hb as (_ & _ & _ & Ho).
    rewrite to_size_t_id by lia. rewrite IH; lia.
Qed.

(** Under the invariant the two accounting functions read the sums over
    the chain, and [bytes_used() <= bytes_reserved()]. *)
Lemma arena_inv_accounting (a : Arena) :
  arena_inv a ->
  arena_bytes_used a = sum_offset (current a) /\
  arena_bytes_reserved a = sum_capacity (current a) /\
  arena_bytes_used a <= arena_bytes_reserved a.
Proof.
  intros [Hwf Hdis Hres].
  pose proof (sum_capacity_range _ Hwf Hdis).
  pose proof (sum_offset_le_capacity _ Hwf).
  unfold arena_bytes_used, arena_bytes_reserved.
  rewrite used_fold_sum by (try assumption; lia). lia.
Qed.

(** ** The invariant is kept by every operation *)

Lemma arena_inv_zero : arena_inv arena_zero.
Proof. split; simpl; [constructor | exact I | reflexivity]. Qed.

Lemma new_block_wf answer live cap nb :
  arena__new_block answer live cap = Some nb ->
  0 <= cap ->
  block_wf nb /\ region_free live (addr nb) (SIZEOF_BLOCK + capacity nb) = true.
Proof.
  intros Hnb Hcap.
  pose proof (new_block_offset _ _ _ _ Hnb) as Hoff.
  destruct (new_block_capacity _ _ _ _ Hnb) as (Hc & Hmax & Hm).
  apply malloc_some in Hm as (Hpos & Hend & Hfree).
  split; [| exact Hfree].
  assert (1 <= capacity nb) by (rewrite Hc; destruct (Z.eqb_spec cap 0); lia).
  unfold block_wf, data. repeat split; lia.
Qed.

Lemma arena_init_inv answer a n :
  0 <= n -> arena_inv (arena_init answer a n).
Proof.
  intros Hn. unfold arena_init.
  destruct (arena__new_block answer (current a) n) as [nb |] eqn:Hnb.
  - destruct (new_block_wf _ _ _ _ Hnb Hn) as [Hwf _].
    split; simpl; [constructor; [exact Hwf | constructor] | auto | lia].
  - split; simpl; [constructor | exact I | reflexivity].
Qed.

Lemma loop_run_inv align a size res :
  loop_run align a size res ->
  0 <= align -> 0 <= size ->
  arena_inv a -> arena_inv (snd res).
Proof.
  intros Hrun Hal.
  induction Hrun as [a b older size aligned Hc Haligned Hnz H1 H2
                    | a size
                    | a size answer nb res Hne Hnb Hrun IH]; intros Hsize Hinv.
  - destruct Hinv as [Hwf Hdis Hres]. rewrite Hc in *.
    inversion Hwf as [| ? ? Hb Holder]; subst.
    destruct Hb as (Ha & Hend & Hcap & Ho).
    pose proof (to_size_t_range
                  (arena__align_up_ptr (to_size_t (data b + offset b)) align
                   - data b)) as Hoff.
    split; cbn [snd current reserved].
    + constructor; [| exact Holder].
      unfold block_wf, data in *. cbn [set_offset addr capacity offset].
      rewrite to_size_t_id.
      * repeat split; lia.
      * unfold SIZEOF_BLOCK, UINTPTR_MAX, SIZE_MAX in *. lia.
    + exact Hdis.
    + exact Hres.
  - exact Hinv.
  - assert (Hcap : 0 <= arena__max (default_block_size a)
                          (if align =? 0 then 0 else align - 1)).
    { rewrite arena__max_spec. destruct (Z.eqb_spec align 0); lia. }
    destruct (new_block_wf _ _ _ _ Hnb Hcap) as [Hwf Hfree].
    apply IH.
    + destruct (Z.eqb_spec align 0); lia.
    + destruct Hinv as [Hwfs Hdis Hres].
      assert (Hwf' : Forall block_wf (nb :: current a)) by (constructor; assumption).
      assert (Hdis' : chain_disjoint (nb :: current a)) by (split; assumption).
      split; cbn [current reserved]; try assumption.
      pose proof (sum_capacity_range _ Hwf' Hdis') as Hrange.
      cbn [sum_capacity fold_right] in *. fold (sum_capacity (current a)) in *.
      rewrite Hres. rewrite to_size_t_id; lia.
Qed.

Lemma first_init_inv oracle a size align : arena_inv (first_init oracle a size align).
Proof.
  unfold first_init. apply arena_init_inv.
  rewrite arena__max_spec.
  pose proof (to_size_t_range (size + (if align =? 0 then 0 else align))). lia.
Qed.

Lemma alloc_inv oracle a size align :
  0 <= align -> 0 <= size ->
  arena_inv a -> arena_inv (snd (arena_alloc_align oracle a size align)).
Proof.
  intros Hal Hsize Hinv.
  destruct (arena_alloc_align_path oracle a size align)
    as [Hs | Hs Hc Hc1 | res Hs Hc Hc1 Hrun | res Hs Hc Hrun].
  - exact Hinv.
  - apply first_init_inv.
  - eapply loop_run_inv; try eassumption. apply first_init_inv.
  - eapply loop_run_inv; eassumption.
Qed.

(** The loop of [arena_release] is always defined: it frees a prefix of
    the chain and returns the rest. *)
Lemma release_loop_result (chain : list ArenaBlock) (target : option Z) :
  forall reserved, exists pre rest,
    chain = pre ++ rest /\
    release_loop chain reserved target = Done (rest, drop_capacities pre reserved).
Proof.
  induction chain as [| b chain IH]; intros reserved.
  - exists [], []. split; reflexivity.
  - cbn [release_loop]. destruct (ptr_eqb (Some (addr b)) target).
    + exists [], (b :: chain). split; reflexivity.
    + cbn [get_capacity bind free].
      destruct (IH (to_size_t (reserved - capacity b))) as (pre & rest & -> & Hloop).
      exists (b :: pre), rest. split; [reflexivity | exact Hloop].
Qed.

Lemma sum_capacity_app (pre rest : list ArenaBlock) :
  sum_capacity (pre ++ rest) = sum_capacity pre + sum_capacity rest.
Proof. induction pre as [| b pre IH]; simpl; lia. Qed.

Lemma chain_disjoint_suffix (pre rest : list ArenaBlock) :
  chain_disjoint (pre ++ rest) -> chain_disjoint rest.
Proof.
  induction pre as [| b pre IH]; simpl; [auto |]. intros [_ H]. auto.
Qed.

Lemma arena_inv_suffix (pre rest : list ArenaBlock) (d r : Z) :
  arena_inv (mkArena (pre ++ rest) d r) ->
  arena_inv (mkArena rest d (drop_capacities pre r)).
Proof.
  intros [Hwf Hdis Hres]. cbn [current reserved] in *.
  pose proof (sum_capacity_range _ Hwf Hdis) as Hrange.
  apply Forall_app in Hwf as [Hpre Hrest].
  pose proof (chain_disjoint_suffix _ _ Hdis) as Hdis'.
  pose proof (sum_capacity_range _ Hrest Hdis') as Hrange'.
  split; cbn [current reserved]; try assumption.
  rewrite drop_capacities_sum by lia.
  rewrite Hres, sum_capacity_app. rewrite to_size_t_id; lia.
Qed.

Lemma arena_inv_set_offset (b : ArenaBlock) (rest : list ArenaBlock) (d r o : Z) :
  arena_inv (mkArena (b :: rest) d r) ->
  0 <= o <= capacity b ->
  arena_inv (mkArena (set_offset b o :: rest) d r).
Proof.
  intros [Hwf Hdis Hres] Ho. cbn [current reserved] in *.
  inversion Hwf as [| ? ? (Ha & Hend & Hcap & _) Hrest]; subst.
  split; cbn [current reserved]; [| exact Hdis | reflexivity].
  constructor; [| exact Hrest].
  unfold block_wf, data in *. cbn [set_offset addr capacity offset].
  repeat split; lia.
Qed.

Lemma release_inv (a : Arena) (m : ArenaMark) :
  0 <= mark_offset m ->
  arena_inv a ->
  exists a', arena_release a m = Done a' /\ arena_inv a'.
Proof.
  intros Hm Hinv. unfold arena_release.
  destruct (current a) as [| b0 older0] eqn:Hc; [exists a; auto |].
  rewrite <- Hc.
  destruct (release_loop_result (current a) (block m) (reserved a))
    as (pre & rest & Hchain & ->).
  cbn [bind fst snd].
  assert (Hrest : arena_inv (mkArena rest (default_block_size a)
                               (drop_capacities pre (reserved a)))).
  { apply arena_inv_suffix. rewrite <- Hchain. destruct a; exact Hinv. }
  destruct rest as [| b prev]; [eexists; split; [reflexivity | exact Hrest] |].
  destruct (ptr_eqb (Some (addr b)) (block m));
    [| eexists; split; [reflexivity | exact Hrest]].
  eexists. split; [reflexivity |].
  apply arena_inv_set_offset; [exact Hrest |].
  destruct Hrest as [Hwf _ _]. cbn [current] in Hwf.
  inversion Hwf as [| ? ? (_ & _ & Hcap & _) _]; subst.
  destruct (Z.leb_spec (mark_offset m) (capacity b)); lia.
Qed.

Lemma reset_inv (a a' : Arena) :
  arena_reset a = Done a' -> arena_inv a -> arena_inv a'.
Proof.
  unfold arena_reset. destruct a as [chain d r]. cbn [current reserved default_block_size].
  destruct chain as [| b [| prev older]]; cbn; intros Heq Hinv;
    try discriminate; injection Heq as <-.
  - exact Hinv.
  - apply arena_inv_set_offset; [exact Hinv |].
    destruct Hinv as [Hwf _ _]. cbn [current] in Hwf.
    inversion Hwf as [| ? ? (_ & _ & Hcap & _) _]; subst. lia.
Qed.

Lemma run_op_inv (o : op) (a : Arena) (m : memory) (a' : Arena) (m' : memory) :
  run_op o (a, m) = Done (a', m') -> arena_inv a -> arena_inv a'.
Proof.
  intros Hrun Hinv. destruct o; cbn [run_op] in Hrun.
  - injection Hrun as <- <-. apply arena_init_inv. apply to_size_t_range.
  - injection Hrun as <- <-.
    apply alloc_inv; try assumption; apply to_size_t_range.
  - destruct (arena_zalloc_align _ _ _ _ _) as [r |] eqn:Hz; [| discriminate].
    cbn [bind] in Hrun. injection Hrun as <- <-.
    apply zalloc_arena in Hz. rewrite Hz.
    apply alloc_inv; try assumption; apply to_size_t_range.
  - destruct (arena_strdup _ _ _ _) as [r |] eqn:Hz; [| discriminate].
    cbn [bind] in Hrun. injection Hrun as <- <-.
    apply strdup_arena in Hz as (n & Hn & Hz). rewrite Hz.
    apply alloc_inv; try assumption; lia.
  - injection Hrun as <- <-. exact Hinv.
  - destruct (release_inv a (mkMark (block m0) (to_size_t (mark_offset m0))))
      as (a1 & Hrel & Hinv1); [apply to_size_t_range | exact Hinv |].
    rewrite Hrel in Hrun. cbn [bind] in Hrun. injection Hrun as <- <-. exact Hinv1.
  - destruct (arena_reset a) as [a1 |] eqn:Hr; [| discriminate].
    cbn [bind] in Hrun. injection Hrun as <- <-. eapply reset_inv; eassumption.
  - injection Hrun as <- <-. apply arena_inv_zero.
Qed.

Lemma run_inv (ops : list op) :
  forall a m a' m',
    run ops (a, m) = Done (a', m') -> arena_inv a -> arena_inv a'.
Proof.
  induction ops as [| o ops IH]; intros a m a' m' Hrun Hinv.
  - injection Hrun as <- <-. exact Hinv.
  - cbn [run] in Hrun.
    destruct (run_op o (a, m)) as [[a1 m1] |] eqn:Hstep; [| discriminate].
    cbn [bind] in Hrun. eapply IH; [eassumption |].
    eapply run_op_inv; eassumption.
Qed.

(** X21: on an arena of one block that satisfies the invariant,
    [arena_reset] is defined, keeps the block with offset 0, and leaves
    [bytes_used()] at 0 and [bytes_reserved()] at the capacity of that
    block. *)
Lemma reset_one_block_accounting (b : ArenaBlock) (d r : Z) :
  arena_inv (mkArena [b] d r) ->
  exists a',
    arena_reset (mkArena [b] d r) = Done a' /\
    current a' = [set_offset b 0] /\
    arena_bytes_used a' = 0 /\
    arena_bytes_reserved a' = capacity b.
Proof.
  intros Hinv. eexists. split; [apply reset_single_block |].
  destruct Hinv as [_ _ Hres]. cbn in Hres.
  repeat split. cbn. lia.
Qed.

(** X19: on every run from the zero-valued arena that meets no undefined
    behaviour, [bytes_used() <= bytes_reserved()] and [reserved] is the sum
    of the capacities of the chain. *)
Lemma defined_run_accounting (ops : list op) (m : memory) (a : Arena) (m' : memory) :
  run ops (arena_zero, m) = Done (a, m') ->
  arena_bytes_used a <= arena_bytes_reserved a /\
  reserved a = sum_capacity (current a).
Proof.
  intros Hrun.
  pose proof (run_inv ops _ _ _ _ Hrun arena_inv_zero) as Hinv.
  destruct (arena_inv_accounting a Hinv) as (_ & Hres & Hle). auto.
Qed.

(** * Further properties of the allocator *)

(** ** Alignment of what is returned *)

(** X1: for an address [p] and an alignment [align] that are [size_t]
    values, a non-zero result of [arena__align_up_ptr] is a multiple of the
    effective alignment, lies between [p] and [p + alignment] and fits in
    [uintptr_t]; the result is 0 only when [p + alignment] exceeds
    [UINTPTR_MAX]. *)
Theorem align_up_result (p align : Z) :
  0 <= p -> 0 <= align ->
  let a := effective_align align in
  let r := arena__align_up_ptr p align in
  (r <> 0 -> r mod a = 0 /\ p <= r <= p + a /\ r <= UINTPTR_MAX) /\
  (r = 0 -> UINTPTR_MAX < p + a).
Proof.
  intros Hp Ha a r.
  destruct (align_up_characterisation p align Hp Ha) as (Hmod & Hb & He).
  fold a in Hmod, Hb, He. fold r in He.
  destruct (Z.gtb_spec (p + (a - p mod a)) UINTPTR_MAX) as [Hgt | Hle].
  - split; [congruence | lia].
  - split; [| lia]. intros _. rewrite He. repeat split; try assumption; lia.
Qed.

Lemma align_up_result_witness :
  (arena__align_up_ptr 4121 16 <> 0 ->
   arena__align_up_ptr 4121 16 mod effective_align 16 = 0 /\
   4121 <= arena__align_up_ptr 4121 16 <= 4121 + effective_align 16 /\
   arena__align_up_ptr 4121 16 <= UINTPTR_MAX) /\
  (arena__align_up_ptr 4121 16 = 0 -> UINTPTR_MAX < 4121 + effective_align 16).
Proof. apply (align_up_result 4121 16); lia. Defined.

Lemma loop_run_aligned align a size res :
  loop_run align a size res ->
  0 <= align ->
  forall p, fst res = Some p ->
    p mod effective_align align = 0 /\ 0 < p <= UINTPTR_MAX.
Proof.
  intros Hrun Hal.
  induction Hrun as [a b older size aligned Hc Haligned Hnz H1 H2
                    | a size
                    | a size answer nb res Hne Hnb Hrun IH]; intros p Hp.
  - cbn [fst] in Hp. injection Hp as <-.
    pose proof (to_size_t_range (data b + offset b)) as Hbase.
    destruct (align_up_result (to_size_t (data b + offset b)) align
                ltac:(lia) Hal) as [Hok _].
    cbv zeta in Hok. rewrite <- Haligned in Hok.
    destruct (Hok Hnz) as (Hm & Hb & Hmax). repeat split; try assumption; lia.
  - discriminate.
  - apply IH. exact Hp.
Qed.

(** X2: every address that [arena_alloc_align] returns is non-null and a
    multiple of the requested alignment (of [_Alignof(max_align_t)] when
    the alignment is 0), whatever the arena and the answers of malloc. *)
Theorem alloc_result_aligned
    (oracle : list (option Z)) (a : Arena) (size align p : Z) (a' : Arena) :
  0 <= align ->
  arena_alloc_align oracle a size align = (Some p, a') ->
  p mod effective_align align = 0 /\ 0 < p <= UINTPTR_MAX.
Proof.
  intros Hal Heq.
  pose proof (arena_alloc_align_path oracle a size align) as Hpath.
  rewrite Heq in Hpath.
  inversion Hpath as [Hs | Hs Hc Hc1 | res Hs Hc Hc1 Hrun | res Hs Hc Hrun]; subst.
  - apply (loop_run_aligned _ _ _ _ Hrun Hal). reflexivity.
  - apply (loop_run_aligned _ _ _ _ Hrun Hal). reflexivity.
Qed.

Lemma alloc_result_aligned_witness :
  8224 mod effective_align 16 = 0 /\ 0 < 8224 <= UINTPTR_MAX.
Proof.
  apply (alloc_result_aligned [Some 8192] arena_64 200 16 8224
           (mkArena [mkBlock 8192 64 23; mkBlock 4096 64 0] 64 128)).
  - lia.
  - reflexivity.
Defined.

(** X3: [arena_alloc] returns addresses that are multiples of 16, the
    alignment of [max_align_t]. *)
Theorem arena_alloc_result_aligned
    (oracle : list (option Z)) (a : Arena) (size p : Z) (a' : Arena) :
  arena_alloc oracle a size = (Some p, a') ->
  p mod 16 = 0 /\ p <> 0.
Proof.
  unfold arena_alloc. intros Heq.
  assert (Hal : 0 <= MAX_ALIGN) by (unfold MAX_ALIGN; lia).
  pose proof (arena_alloc_align_path oracle a size MAX_ALIGN) as Hpath.
  rewrite Heq in Hpath.
  assert (Hrun : exists a0, loop_run MAX_ALIGN a0 size (Some p, a')).
  { inversion Hpath as [Hs | Hs Hc Hc1 | res Hs Hc Hc1 Hrun | res Hs Hc Hrun]; subst;
      eexists; eassumption. }
  destruct Hrun as (a0 & Hrun).
  destruct (loop_run_aligned _ _ _ _ Hrun Hal p eq_refl) as [Hm Hp].
  split; [exact Hm | lia].
Qed.

Lemma arena_alloc_result_aligned_witness : 4128 mod 16 = 0 /\ 4128 <> 0.
Proof.
  apply (arena_alloc_result_aligned [] arena_64 10 4128
           (mkArena [mkBlock 4096 64 18] 64 64)).
  reflexivity.
Defined.

(** ** Where the returned region lies *)

(** The arithmetic of one iteration on a well-formed block: nothing
    wraps. *)
Lemma fit_step (b : ArenaBlock) (align : Z) :
  block_wf b -> 0 <= align ->
  let aligned := arena__align_up_ptr (to_size_t (data b + offset b)) align in
  aligned <> 0 ->
  data b + offset b <= aligned /\
  aligned <= UINTPTR_MAX /\
  to_size_t (aligned - data b) = aligned - data b.
Proof.
  intros (Ha & Hend & Hcap & Ho) Hal aligned Hnz.
  assert (Hbase : to_size_t (data b + offset b) = data b + offset b).
  { apply to_size_t_id. unfold data, SIZEOF_BLOCK, UINTPTR_MAX, SIZE_MAX in *. lia. }
  destruct (align_up_result (to_size_t (data b + offset b)) align) as [Hok _];
    [rewrite Hbase; unfold data, SIZEOF_BLOCK; lia | exact Hal |].
  cbv zeta in Hok. fold aligned in Hok. rewrite Hbase in Hok.
  destruct (Hok Hnz) as (_ & Hb & Hmax).
  repeat split; try lia.
  apply to_size_t_id. unfold data, SIZEOF_BLOCK, UINTPTR_MAX, SIZE_MAX in *. lia.
Qed.

(** Linking a block that [arena__new_block] returned keeps the invariant. *)
Lemma grow_inv (a : Arena) (answer : option Z) (cap : Z) (nb : ArenaBlock) :
  arena_inv a -> 0 <= cap ->
  arena__new_block answer (current a) cap = Some nb ->
  arena_inv (mkArena (nb :: current a) (default_block_size a)
               (to_size_t (reserved a + capacity nb))) /\
  to_size_t (reserved a + capacity nb) = reserved a + capacity nb.
Proof.
  intros [Hwfs Hdis Hres] Hcap Hnb.
  destruct (new_block_wf _ _ _ _ Hnb Hcap) as [Hwf Hfree].
  assert (Hwf' : Forall block_wf (nb :: current a)) by (constructor; assumption).
  assert (Hdis' : chain_disjoint (nb :: current a)) by (split; assumption).
  pose proof (sum_capacity_range _ Hwf' Hdis') as Hrange.
  pose proof (sum_capacity_range _ Hwfs Hdis) as Hrange0.
  cbn [sum_capacity fold_right] in Hrange. fold (sum_capacity (current a)) in Hrange.
  assert (Hid : to_size_t (reserved a + capacity nb) = reserved a + capacity nb)
    by (apply to_size_t_id; lia).
  split; [| exact Hid].
  split; cbn [current reserved]; try assumption.
  rewrite Hid, Hres. cbn [sum_capacity fold_right]. fold (sum_capacity (current a)). lia.
Qed.

Lemma slack_nonneg (align : Z) :
  0 <= align -> 0 <= (if align =? 0 then 0 else align - 1).
Proof. intros H. destruct (Z.eqb_spec align 0); lia. Qed.

Lemma grow_capacity_nonneg (d align : Z) :
  0 <= align -> 0 <= arena__max d (if align =? 0 then 0 else align - 1).
Proof.
  intros H. rewrite arena__max_spec. pose proof (slack_nonneg align H). lia.
Qed.



Lemma arena_64_inv : arena_inv arena_64.
Proof. apply (arena_init_inv (Some 4096) arena_zero 64). lia. Qed.


(** A run of the loop never shortens the chain, and a run that leaves its
    length unchanged returned in the first iteration. *)
Lemma loop_run_length align a size res :
  loop_run align a size res ->
  (length (current a) <= length (current (snd res)))%nat /\
  (length (current (snd res)) = length (current a) ->
   res = (None, a) \/
   exists b older,
     current a = b :: older /\
     arena__align_up_ptr (to_size_t (data b + offset b)) align <> 0 /\
     to_size_t (arena__align_up_ptr (to_size_t (data b + offset b)) align - data b)
       <= capacity b /\
     size <= capacity b -
       to_size_t (arena__align_up_ptr (to_size_t (data b + offset b)) align - data b) /\
     res =
       (Some (arena__align_up_ptr (to_size_t (data b + offset b)) align),
        mkArena
          (set_offset b
             (to_size_t
                (to_size_t
                   (arena__align_up_ptr (to_size_t (data b + offset b)) align
                    - data b) + size)) :: older)
          (default_block_size a) (reserved a))).
Proof.
  induction 1 as [a b older size aligned Hc Haligned Hnz H1 H2
                 | a size
                 | a size answer nb res Hne Hnb Hrun IH].
  - subst aligned. cbn [snd current]. rewrite Hc. split; [reflexivity |].
    intros _. right. exists b, older. repeat split; assumption.
  - split; [reflexivity | auto].
  - destruct IH as [Hlen _]. cbn [current length] in Hlen.
    split; [lia |]. intros Heq. lia.
Qed.

(** A successful run of the loop that leaves the length of the chain
    unchanged was served by the block that was current. *)
Lemma loop_run_same_length align a size res p
    (b : ArenaBlock) (older : list ArenaBlock) :
  loop_run align a size res ->
  arena_inv a -> 0 <= size -> 0 <= align ->
  current a = b :: older ->
  fst res = Some p ->
  length (current (snd res)) = length (current a) ->
  snd res = mkArena (set_offset b (p - data b + size) :: older)
              (default_block_size a) (reserved a) /\
  data b + offset b <= p /\
  p + size <= data b + capacity b.
Proof.
  intros Hrun Hinv Hsize Hal Hc Hp Hlen.
  destruct (loop_run_length _ _ _ _ Hrun) as [_ Hsame].
  destruct (Hsame Hlen) as [-> | (b0 & older0 & Hc0 & Hnz & H1 & H2 & ->)];
    [discriminate |].
  rewrite Hc in Hc0. injection Hc0 as <- <-.
  destruct Hinv as [Hwf _ _]. rewrite Hc in Hwf.
  inversion Hwf as [| ? ? Hb _]; subst.
  destruct (fit_step b align Hb Hal Hnz) as (Hlo & Hmax & Hid).
  destruct Hb as (Ha & Hend & Hcap & Ho).
  set (aligned := arena__align_up_ptr (to_size_t (data b + offset b)) align) in *.
  rewrite Hid in *. cbn [fst snd] in *. injection Hp as <-.
  rewrite to_size_t_id
    by (unfold data, SIZEOF_BLOCK, UINTPTR_MAX, SIZE_MAX in *; lia).
  repeat split; lia.
Qed.

(** With a current block and a non-zero size, [arena_alloc_align] is the
    loop. *)
Lemma alloc_with_current_is_loop
    (oracle : list (option Z)) (a : Arena) (size align p : Z) (a' : Arena) :
  current a <> [] ->
  arena_alloc_align oracle a size align = (Some p, a') ->
  loop_run align a size (Some p, a').
Proof.
  intros Hne Heq.
  pose proof (arena_alloc_align_path oracle a size align) as Hpath.
  rewrite Heq in Hpath.
  inversion Hpath as [Hs | Hs Hc0 Hc1 | res Hs Hc0 Hc1 Hrun | res Hs Hne' Hrun]; subst;
    congruence.
Qed.

(** X5: on an arena that satisfies the invariant, a successful call that
    creates no block hands out [size] bytes of the current block that lie
    at or after its offset and within its capacity, moves the offset to the
    end of that region, and changes nothing else in the arena. *)
Theorem alloc_served_by_current_block
    (oracle : list (option Z)) (a : Arena) (size align p : Z) (a' : Arena)
    (b : ArenaBlock) (older : list ArenaBlock) :
  arena_inv a -> 0 <= size -> 0 <= align ->
  current a = b :: older ->
  arena_alloc_align oracle a size align = (Some p, a') ->
  length (current a') = length (current a) ->
  a' = mkArena (set_offset b (p - data b + size) :: older)
         (default_block_size a) (reserved a) /\
  data b + offset b <= p /\
  p + size <= data b + capacity b.
Proof.
  intros Hinv Hsize Hal Hc Heq Hlen.
  assert (Hrun : loop_run align a size (Some p, a')).
  { apply (alloc_with_current_is_loop oracle); [rewrite Hc; discriminate | exact Heq]. }
  apply (loop_run_same_length align a size (Some p, a') p b older Hrun);
    try assumption; reflexivity.
Qed.

Lemma alloc_served_by_current_block_witness :
  mkArena [mkBlock 4096 64 18] 64 64 =
    mkArena (set_offset (mkBlock 4096 64 0) (4128 - data (mkBlock 4096 64 0) + 10) :: [])
      (default_block_size arena_64) (reserved arena_64) /\
  data (mkBlock 4096 64 0) + offset (mkBlock 4096 64 0) <= 4128 /\
  4128 + 10 <= data (mkBlock 4096 64 0) + capacity (mkBlock 4096 64 0).
Proof.
  apply (alloc_served_by_current_block [] arena_64 10 16 4128
           (mkArena [mkBlock 4096 64 18] 64 64) (mkBlock 4096 64 0) []).
  - exact arena_64_inv.
  - lia.
  - lia.
  - reflexivity.
  - reflexivity.
  - reflexivity.
Defined.

(** X6: two successful calls in a row that are both served by the current
    block return regions that do not overlap: the second starts at or
    after the end of the first, and both lie in the data of that block. *)
Theorem successive_allocations_disjoint
    (oracle1 oracle2 : list (option Z)) (a a1 a2 : Arena)
    (size1 align1 p1 size2 align2 p2 : Z)
    (b : ArenaBlock) (older : list ArenaBlock) :
  arena_inv a ->
  0 <= size1 -> 0 <= align1 -> 0 <= size2 -> 0 <= align2 ->
  current a = b :: older ->
  arena_alloc_align oracle1 a size1 align1 = (Some p1, a1) ->
  length (current a1) = length (current a) ->
  arena_alloc_align oracle2 a1 size2 align2 = (Some p2, a2) ->
  length (current a2) = length (current a1) ->
  data b <= p1 /\ p1 + size1 <= p2 /\ p2 + size2 <= data b + capacity b.
Proof.
  intros Hinv Hs1 Hal1 Hs2 Hal2 Hc Heq1 Hlen1 Heq2 Hlen2.
  assert (Hrun1 : loop_run align1 a size1 (Some p1, a1)).
  { apply (alloc_with_current_is_loop oracle1); [rewrite Hc; discriminate | exact Heq1]. }
  destruct (loop_run_same_length _ _ _ _ p1 b older Hrun1 Hinv Hs1 Hal1 Hc
              eq_refl Hlen1) as (Ha1 & Hlo1 & Hhi1).
  cbn [snd] in Ha1.
  assert (Hinv1 : arena_inv a1).
  { pose proof (alloc_inv oracle1 a size1 align1 Hal1 Hs1 Hinv) as H.
    rewrite Heq1 in H. exact H. }
  assert (Hc1 : current a1 = set_offset b (p1 - data b + size1) :: older)
    by (rewrite Ha1; reflexivity).
  assert (Hrun2 : loop_run align2 a1 size2 (Some p2, a2)).
  { apply (alloc_with_current_is_loop oracle2); [rewrite Hc1; discriminate | exact Heq2]. }
  destruct (loop_run_same_length _ _ _ _ p2 _ older Hrun2 Hinv1 Hs2 Hal2 Hc1
              eq_refl Hlen2) as (_ & Hlo2 & Hhi2).
  destruct Hinv as [Hwf _ _]. rewrite Hc in Hwf.
  inversion Hwf as [| ? ? (_ & _ & _ & Ho) _]; subst.
  unfold data in *. cbn [set_offset addr offset capacity] in *. lia.
Qed.

Lemma successive_allocations_disjoint_witness :
  data (mkBlock 4096 64 0) <= 4128 /\ 4128 + 10 <= 4139 /\
  4139 + 5 <= data (mkBlock 4096 64 0) + capacity (mkBlock 4096 64 0).
Proof.
  apply (successive_allocations_disjoint [] [] arena_64
           (mkArena [mkBlock 4096 64 18] 64 64)
           (mkArena [mkBlock 4096 64 24] 64 64)
           10 16 4128 5 1 4139 (mkBlock 4096 64 0) []);
    try lia; try reflexivity.
  exact arena_64_inv.
Defined.

(** ** What an allocation leaves in place *)

Lemma sum_offset_app (pre rest : list ArenaBlock) :
  sum_offset (pre ++ rest) = sum_offset pre + sum_offset rest.
Proof. induction pre as [| b pre IH]; simpl; lia. Qed.

Lemma loop_run_keeps_blocks align a size res :
  loop_run align a size res ->
  0 <= align -> 0 <= size -> arena_inv a ->
  forall b older, current a = b :: older ->
    exists newer o,
      current (snd res) = newer ++ set_offset b o :: older /\
      offset b <= o <= capacity b.
Proof.
  intros Hrun Hal.
  induction Hrun as [a b0 older0 size aligned Hc Haligned Hnz H1 H2
                    | a size
                    | a size answer nb res Hne Hnb Hrun IH];
    intros Hsize Hinv b older Hcur.
  - rewrite Hc in Hcur. injection Hcur as -> ->.
    destruct Hinv as [Hwf _ _]. rewrite Hc in Hwf.
    inversion Hwf as [| ? ? Hb _]; subst.
    destruct (fit_step b align Hb Hal Hnz) as (Hlo & Hmax & Hid).
    destruct Hb as (Ha & Hend & Hcap & Ho).
    set (aligned := arena__align_up_ptr (to_size_t (data b + offset b)) align) in *.
    rewrite Hid in *.
    exists []. eexists. split; [reflexivity |].
    rewrite to_size_t_id
      by (unfold data, SIZEOF_BLOCK, UINTPTR_MAX, SIZE_MAX in *; lia).
    lia.
  - exists [], (offset b). cbn [snd app]. rewrite Hcur.
    destruct Hinv as [Hwf _ _]. rewrite Hcur in Hwf.
    inversion Hwf as [| ? ? (_ & _ & _ & Ho) _]; subst.
    destruct b. split; [reflexivity | cbn in *; lia].
  - destruct (grow_inv a answer _ nb Hinv (grow_capacity_nonneg _ _ Hal) Hnb)
      as [Hinv1 _].
    destruct (IH (slack_nonneg _ Hal) Hinv1 nb (current a) eq_refl)
      as (newer & o & Hchain & _).
    exists (newer ++ [set_offset nb o]), (offset b).
    rewrite Hchain, Hcur, <- app_assoc.
    destruct Hinv as [Hwf _ _]. rewrite Hcur in Hwf.
    inversion Hwf as [| ? ? (_ & _ & _ & Ho) _]; subst.
    destruct b. split; [reflexivity | cbn in *; lia].
Qed.

Lemma keeps_blocks_refl (b : ArenaBlock) (older : list ArenaBlock) :
  block_wf b ->
  exists newer o,
    b :: older = newer ++ set_offset b o :: older /\
    offset b <= o <= capacity b.
Proof.
  intros (_ & _ & _ & Ho). exists [], (offset b).
  destruct b. split; [reflexivity | cbn in *; lia].
Qed.

(** X7: whether it succeeds or fails, a call to [arena_alloc_align] on an
    arena that satisfies the invariant frees and reorders nothing: the
    blocks behind the current one are left as they are, the current block
    keeps its address and capacity, its offset does not decrease, and new
    blocks are only put in front. *)
Theorem alloc_keeps_blocks
    (oracle : list (option Z)) (a : Arena) (size align : Z)
    (b : ArenaBlock) (older : list ArenaBlock) :
  arena_inv a -> 0 <= size -> 0 <= align ->
  current a = b :: older ->
  exists newer o,
    current (snd (arena_alloc_align oracle a size align)) =
      newer ++ set_offset b o :: older /\
    offset b <= o <= capacity b.
Proof.
  intros Hinv Hsize Hal Hc.
  destruct (arena_alloc_align_path oracle a size align)
    as [Hs | Hs Hc0 Hc1 | res Hs Hc0 Hc1 Hrun | res Hs Hne Hrun];
    try congruence.
  - cbn [snd]. rewrite Hc. apply keeps_blocks_refl.
    destruct Hinv as [Hwf _ _]. rewrite Hc in Hwf.
    inversion Hwf; assumption.
  - eapply loop_run_keeps_blocks; eassumption.
Qed.

Lemma alloc_keeps_blocks_witness :
  exists newer o,
    current (snd (arena_alloc_align [Some 8192] arena_64 200 16)) =
      newer ++ set_offset (mkBlock 4096 64 0) o :: [] /\
    offset (mkBlock 4096 64 0) <= o <= capacity (mkBlock 4096 64 0).
Proof.
  apply (alloc_keeps_blocks [Some 8192] arena_64 200 16 (mkBlock 4096 64 0) []).
  - exact arena_64_inv.
  - lia.
  - lia.
  - reflexivity.
Defined.

(** X8: on an arena that satisfies the invariant, a call to
    [arena_alloc_align] never lowers [bytes_used()] or [bytes_reserved()]. *)
Theorem alloc_accounting_monotone
    (oracle : list (option Z)) (a : Arena) (size align : Z) :
  arena_inv a -> 0 <= size -> 0 <= align ->
  arena_bytes_used a <=
    arena_bytes_used (snd (arena_alloc_align oracle a size align)) /\
  arena_bytes_reserved a <=
    arena_bytes_reserved (snd (arena_alloc_align oracle a size align)).
Proof.
  intros Hinv Hsize Hal.
  pose proof (alloc_inv oracle a size align Hal Hsize Hinv) as Hinv'.
  destruct (arena_inv_accounting _ Hinv) as (Hu & Hr & _).
  destruct (arena_inv_accounting _ Hinv') as (Hu' & Hr' & _).
  rewrite Hu, Hr, Hu', Hr'.
  destruct Hinv' as [Hwf' Hdis' _].
  destruct (current a) as [| b older] eqn:Hc.
  - pose proof (sum_offset_le_capacity _ Hwf').
    pose proof (sum_capacity_range _ Hwf' Hdis'). cbn. lia.
  - assert (Hkeep : exists newer o,
               current (snd (arena_alloc_align oracle a size align)) =
                 newer ++ set_offset b o :: older /\
               offset b <= o <= capacity b).
    { destruct (arena_alloc_align_path oracle a size align)
        as [Hs | Hs Hc0 Hc1 | res Hs Hc0 Hc1 Hrun | res Hs Hne Hrun];
        try congruence.
      - cbn [snd]. rewrite Hc. apply keeps_blocks_refl.
        destruct Hinv as [Hwf _ _]. rewrite Hc in Hwf.
        inversion Hwf; assumption.
      - eapply loop_run_keeps_blocks; eassumption. }
    destruct Hkeep as (newer & o & Hchain & Ho).
    rewrite Hchain in *.
    apply Forall_app in Hwf' as [Hnewer _].
    pose proof (sum_offset_le_capacity _ Hnewer).
    rewrite sum_offset_app, sum_capacity_app. cbn. lia.
Qed.

Lemma alloc_accounting_monotone_witness :
  arena_bytes_used arena_64 <=
    arena_bytes_used (snd (arena_alloc_align [Some 8192] arena_64 200 16)) /\
  arena_bytes_reserved arena_64 <=
    arena_bytes_reserved (snd (arena_alloc_align [Some 8192] arena_64 200 16)).
Proof.
  apply (alloc_accounting_monotone [Some 8192] arena_64 200 16).
  - exact arena_64_inv.
  - lia.
  - lia.
Defined.

(** ** Release *)

(** The loop of [arena_release] frees the blocks in front of the first
    one whose address is the target (all of them when there is none). *)
Lemma release_loop_stops (chain : list ArenaBlock) (target : option Z) :
  forall reserved, exists pre rest,
    chain = pre ++ rest /\
    Forall (fun b => Some (addr b) <> target) pre /\
    match rest with
    | [] => True
    | b :: _ => Some (addr b) = target
    end /\
    release_loop chain reserved target = Done (rest, drop_capacities pre reserved).
Proof.
  induction chain as [| b chain IH]; intros reserved.
  - exists [], []. repeat split; constructor.
  - cbn [release_loop]. destruct (ptr_eqb (Some (addr b)) target) eqn:Heq.
    + exists [], (b :: chain). apply ptr_eqb_eq in Heq.
      repeat split; [constructor | exact Heq].
    + cbn [get_capacity bind free]. apply ptr_eqb_neq in Heq.
      destruct (IH (to_size_t (reserved - capacity b)))
        as (pre & rest & -> & Hpre & Hrest & Hloop).
      exists (b :: pre), rest. repeat split; try assumption.
      constructor; assumption.
Qed.

(** X9: [arena_release] is defined for every arena and every mark, and
    releasing a second time to the same mark changes nothing. *)
Theorem release_idempotent (a : Arena) (m : ArenaMark) :
  exists a', arena_release a m = Done a' /\ arena_release a' m = Done a'.
Proof.
  unfold arena_release at 1.
  destruct (current a) as [| b0 older0] eqn:Hc.
  - exists a. split; [reflexivity |]. unfold arena_release. rewrite Hc. reflexivity.
  - rewrite <- Hc.
    destruct (release_loop_stops (current a) (block m) (reserved a))
      as (pre & rest & _ & _ & Hrest & ->).
    cbn [bind fst snd].
    destruct rest as [| b prev].
    + eexists. split; reflexivity.
    + apply ptr_eqb_eq in Hrest. rewrite Hrest.
      eexists. split; [reflexivity |].
      unfold arena_release. cbn [current reserved default_block_size].
      cbn [release_loop]. cbn [set_offset addr]. rewrite Hrest.
      cbn [bind fst snd]. cbn [set_offset addr capacity]. rewrite Hrest.
      destruct (mark_offset m <=? capacity b); reflexivity.
Qed.

(** X10: when the block of the mark is in the chain, behind blocks that
    have other addresses, [arena_release] frees exactly the blocks in
    front of it, decrements [reserved] by the capacity of each, and sets
    the offset of the marked block to the offset of the mark, or to 0 when
    that offset exceeds the capacity; the older blocks and
    [default_block_size] are untouched. *)
Theorem release_to_marked_block
    (a : Arena) (pre : list ArenaBlock) (b : ArenaBlock)
    (older : list ArenaBlock) (mark : Z) :
  current a = pre ++ b :: older ->
  Forall (fun y => addr y <> addr b) pre ->
  arena_release a (mkMark (Some (addr b)) mark) =
    Done (mkArena
            (set_offset b (if mark <=? capacity b then mark else 0) :: older)
            (default_block_size a)
            (drop_capacities pre (reserved a))).
Proof.
  intros Hc Hpre. unfold arena_release. rewrite Hc.
  destruct (pre ++ b :: older) as [| x xs] eqn:Hx; [destruct pre; discriminate |].
  rewrite <- Hx. cbn [block mark_offset].
  rewrite (release_loop_prefix pre (b :: older) (Some (addr b))).
  - cbn [bind fst snd].
    replace (ptr_eqb (Some (addr b)) (Some (addr b))) with true
      by (symmetry; apply ptr_eqb_eq; reflexivity).
    reflexivity.
  - eapply Forall_impl; [| exact Hpre]. cbn beta. congruence.
  - reflexivity.
Qed.

Lemma release_to_marked_block_witness :
  arena_release arena_two_blocks (mkMark (Some (addr (mkBlock 4096 64 0))) 100) =
    Done (mkArena
            (set_offset (mkBlock 4096 64 0)
               (if 100 <=? capacity (mkBlock 4096 64 0) then 100 else 0) :: [])
            (default_block_size arena_two_blocks)
            (drop_capacities [mkBlock 8192 64 1] (reserved arena_two_blocks))).
Proof.
  apply (release_to_marked_block arena_two_blocks [mkBlock 8192 64 1]
           (mkBlock 4096 64 0) [] 100).
  - reflexivity.
  - repeat constructor. cbn. lia.
Defined.

(** X11: releasing to a mark that has just been taken leaves the arena as
    it is, provided the offset of the current block does not exceed its
    capacity. *)
Theorem release_at_own_mark (a : Arena) :
  match current a with
  | b :: _ => offset b <= capacity b
  | [] => True
  end ->
  arena_release a (arena_mark a) = Done a.
Proof.
  intros Hok. unfold arena_release, arena_mark.
  destruct a as [chain d r]. cbn [current reserved default_block_size] in *.
  destruct chain as [| b older]; [reflexivity |].
  cbn [block mark_offset release_loop].
  replace (ptr_eqb (Some (addr b)) (Some (addr b))) with true
    by (symmetry; apply ptr_eqb_eq; reflexivity).
  cbn [bind fst snd].
  replace (ptr_eqb (Some (addr b)) (Some (addr b))) with true
    by (symmetry; apply ptr_eqb_eq; reflexivity).
  destruct (Z.leb_spec (offset b) (capacity b)); [| lia].
  destruct b. reflexivity.
Qed.

Lemma release_at_own_mark_witness :
  arena_release arena_two_blocks (arena_mark arena_two_blocks) = Done arena_two_blocks.
Proof.
  apply (release_at_own_mark arena_two_blocks). vm_compute. discriminate.
Defined.

(** Allocating calls on an arena with a current block keep
    [default_block_size]. *)
Lemma run_allocations_default b older ops :
  0 <= capacity b ->
  forall a m a' m',
    Forall is_allocation ops ->
    run ops (a, m) = Done (a', m') ->
    holds_mark b older (current a) ->
    default_block_size a' = default_block_size a.
Proof.
  intros Hcap.
  induction ops as [| o ops IH]; intros a m a' m' Hops Hrun Hm.
  - injection Hrun as <- <-. reflexivity.
  - inversion Hops as [| ? ? Ho Hrest]; subst.
    cbn [run] in Hrun.
    destruct (run_op o (a, m)) as [[a1 m1] |] eqn:Hstep; [| discriminate].
    cbn [bind] in Hrun.
    destruct (allocation_op_arena _ _ _ _ _ Ho Hstep)
      as (oracle & size & align & Hal & ->).
    rewrite (IH _ _ _ _ Hrest Hrun)
      by (apply alloc_holds_mark; assumption).
    destruct (arena_alloc_align_path oracle a size align)
      as [Hs | Hs Hc Hc1 | res Hs Hc Hc1 Hrun' | res Hs Hc Hrun'].
    + reflexivity.
    + destruct Hm as (pre & o' & Hchain & _). rewrite Hc in Hchain.
      destruct pre; discriminate.
    + destruct Hm as (pre & o' & Hchain & _). rewrite Hc in Hchain.
      destruct pre; discriminate.
    + eapply loop_run_default; eassumption.
Qed.

(** Releasing to a mark whose block is still in a chain that satisfies
    the invariant gives back that block with the offset of the mark, the
    blocks behind it, and [reserved] equal to the sum of their
    capacities. *)
Lemma release_restores_marked (a' : Arena) (b : ArenaBlock) (older : list ArenaBlock) :
  arena_inv a' ->
  holds_mark b older (current a') ->
  offset b <= capacity b ->
  arena_release a' (mkMark (Some (addr b)) (offset b)) =
    Done (mkArena (b :: older) (default_block_size a') (sum_capacity (b :: older))).
Proof.
  intros Hinv' (pre & o & Hchain & Hpre) Ho.
  destruct a' as [chain' d' r']. cbn [current reserved default_block_size] in *.
  subst chain'.
  pose proof (arena_inv_suffix pre (set_offset b o :: older) d' r' Hinv')
    as [_ _ Hres']. cbn [current reserved] in Hres'.
  unfold arena_release. cbn [current reserved default_block_size].
  destruct (pre ++ set_offset b o :: older) as [| x xs] eqn:Hx;
    [destruct pre; discriminate |].
  rewrite <- Hx. cbn [block mark_offset].
  rewrite (release_loop_prefix pre (set_offset b o :: older) (Some (addr b)));
    [| eapply Forall_impl; [| exact Hpre]; cbn beta; congruence | reflexivity].
  cbn [bind fst snd].
  replace (ptr_eqb (Some (addr (set_offset b o))) (Some (addr b))) with true
    by (symmetry; apply ptr_eqb_eq; reflexivity).
  cbn [set_offset capacity].
  destruct (Z.leb_spec (offset b) (capacity b)); [| lia].
  fold (set_offset (set_offset b o) (offset b)). rewrite set_offset_same.
  rewrite Hres'. reflexivity.
Qed.

(** X12: on an arena that satisfies the invariant and has a current
    block, taking a mark, making any sequence of allocating calls with
    defined behaviour and releasing to the mark gives back the arena the
    mark was taken on: the same chain with the same offsets, the same
    [reserved] and the same [default_block_size]. *)
Theorem mark_release_restores_arena
    (a : Arena) (m : memory) (ops : list op) (a' : Arena) (m' : memory) :
  arena_inv a ->
  current a <> [] ->
  Forall is_allocation ops ->
  run ops (a, m) = Done (a', m') ->
  arena_release a' (arena_mark a) = Done a.
Proof.
  intros Hinv Hne Hops Hrun.
  destruct a as [chain d r]. cbn [current] in Hne.
  destruct chain as [| b older]; [congruence |].
  pose proof Hinv as [Hwf Hdis Hres]. cbn [current reserved] in Hwf, Hdis, Hres.
  inversion Hwf as [| ? ? (_ & _ & Hcap & Ho) _]; subst.
  assert (Hm0 : holds_mark b older (current (mkArena (b :: older) d (sum_capacity (b :: older))))).
  { exists [], (offset b). destruct b. split; [reflexivity | constructor]. }
  assert (Hm : holds_mark b older (current a')).
  { eapply run_allocations_hold_mark; try eassumption. lia. }
  assert (Hd : default_block_size a' = d).
  { apply (run_allocations_default b older ops ltac:(lia) _ _ _ _ Hops Hrun Hm0). }
  pose proof (run_inv ops _ _ _ _ Hrun Hinv) as Hinv'.
  unfold arena_mark. cbn [current].
  rewrite (release_restores_marked a' b older Hinv' Hm ltac:(lia)).
  rewrite Hd. reflexivity.
Qed.

Lemma mark_release_restores_arena_witness :
  arena_release (mkArena [mkBlock 8192 64 8; mkBlock 4096 64 0] 64 128)
    (arena_mark arena_64) = Done arena_64.
Proof.
  apply (mark_release_restores_arena arena_64 memory_zero
           [Alloc [Some 8192] 1000 1; Strdup [] hello]
           (mkArena [mkBlock 8192 64 8; mkBlock 4096 64 0] 64 128)
           (memcpy memory_zero 8218 hello)).
  - exact arena_64_inv.
  - discriminate.
  - repeat constructor.
  - reflexivity.
Defined.

(** ** Zero-initialised allocation and string duplication *)

(** X13: when [arena_zalloc_align] is defined and returns an address, the
    arena is the one [arena_alloc_align] leaves, every byte of the [size]
    bytes at that address is zero, and every other byte of memory is
    unchanged. *)
Theorem zalloc_zero_filled
    (oracle : list (option Z)) (a : Arena) (m : memory) (size align q : Z)
    (a' : Arena) (m' : memory) :
  arena_zalloc_align oracle a m size align = Done (Some q, a', m') ->
  arena_alloc_align oracle a size align = (Some q, a') /\
  (forall x, q <= x < q + size -> m' x = x00) /\
  (forall x, ~ (q <= x < q + size) -> m' x = m x).
Proof.
  unfold arena_zalloc_align.
  destruct (arena_alloc_align oracle a size align) as [[p |] a1]; [| discriminate].
  destruct (in_live_data _ _ _); [| discriminate].
  intros H. injection H as -> -> <-.
  split; [reflexivity |]. unfold memset. split; intros x Hx.
  - destruct (Z.leb_spec q x); destruct (Z.ltb_spec x (q + size)); cbn; try lia.
    reflexivity.
  - destruct (Z.leb_spec q x); destruct (Z.ltb_spec x (q + size)); cbn; try lia;
      reflexivity.
Qed.

Lemma zalloc_zero_filled_witness :
  arena_alloc_align [] arena_64 10 16 = (Some 4128, mkArena [mkBlock 4096 64 18] 64 64) /\
  (forall x, 4128 <= x < 4128 + 10 ->
     memset (fun _ => xff) 4128 x00 10 x = x00) /\
  (forall x, ~ (4128 <= x < 4128 + 10) ->
     memset (fun _ => xff) 4128 x00 10 x = (fun _ => xff) x).
Proof.
  apply (zalloc_zero_filled [] arena_64 (fun _ => xff) 10 16 4128
           (mkArena [mkBlock 4096 64 18] 64 64)
           (memset (fun _ => xff) 4128 x00 10)).
  reflexivity.
Defined.

Lemma in_live_data_head (b : ArenaBlock) (rest : list ArenaBlock) (p n : Z) :
  data b <= p -> p + n <= data b + capacity b ->
  in_live_data (b :: rest) p n = true.
Proof.
  intros Hlo Hhi. unfold in_live_data. cbn [existsb].
  apply orb_true_iff. left. apply andb_true_iff.
  split; apply Z.leb_le; assumption.
Qed.

(** X14: on an arena that satisfies the invariant, when the request is
    served by the current block (no block is created),
    [arena_zalloc_align] is defined: the region it clears lies inside the
    data of that block. *)
Theorem zalloc_served_by_current_block
    (oracle : list (option Z)) (a : Arena) (m : memory) (size align p : Z)
    (a' : Arena) :
  arena_inv a -> 0 <= size -> 0 <= align ->
  arena_alloc_align oracle a size align = (Some p, a') ->
  length (current a') = length (current a) ->
  arena_zalloc_align oracle a m size align =
    Done (Some p, a', memset m p x00 size).
Proof.
  intros Hinv Hsize Hal Heq Hlen.
  destruct (current a) as [| b older] eqn:Hc.
  - (* without a current block a successful call creates one *)
    pose proof (arena_alloc_align_path oracle a size align) as Hpath.
    rewrite Heq in Hpath.
    inversion Hpath as [Hs | Hs Hc0 Hc1 | res Hs Hc0 Hc1 Hrun | res Hs Hne Hrun]; subst;
      try congruence.
    destruct (loop_run_length _ _ _ _ Hrun) as [Hle _]. cbn [snd] in Hle.
    destruct (current (first_init oracle a size align)); [congruence |].
    cbn [length] in *. lia.
  - assert (Hrun : loop_run align a size (Some p, a')).
    { apply (alloc_with_current_is_loop oracle); [rewrite Hc; discriminate | exact Heq]. }
    rewrite <- Hc in Hlen.
    destruct (loop_run_same_length _ _ _ _ p b older Hrun Hinv Hsize Hal Hc
                eq_refl Hlen) as (Ha' & Hlo & Hhi).
    cbn [snd] in Ha'.
    unfold arena_zalloc_align. rewrite Heq.
    rewrite Ha' at 1. cbn [current].
    rewrite in_live_data_head; [reflexivity | |].
    + destruct Hinv as [Hwf _ _]. rewrite Hc in Hwf.
      inversion Hwf as [| ? ? (_ & _ & _ & Ho) _]; subst.
      unfold data in *. cbn [set_offset addr]. lia.
    + unfold data in *. cbn [set_offset addr capacity]. lia.
Qed.

Lemma zalloc_served_by_current_block_witness :
  arena_zalloc_align [] arena_64 memory_zero 10 16 =
    Done (Some 4128, mkArena [mkBlock 4096 64 18] 64 64,
          memset memory_zero 4128 x00 10).
Proof.
  apply (zalloc_served_by_current_block [] arena_64 memory_zero 10 16 4128
           (mkArena [mkBlock 4096 64 18] 64 64)).
  - exact arena_64_inv.
  - lia.
  - lia.
  - reflexivity.
  - reflexivity.
Defined.

Lemma strlen_firstn (s : list byte) :
  forall len, strlen s = Done len ->
    strlen (firstn (Z.to_nat (len + 1)) s) = Done len.
Proof.
  induction s as [| c rest IH]; intros len; cbn [strlen].
  - discriminate.
  - destruct (Byte.eqb c x00) eqn:Hc.
    + intros H. injection H as <-.
      change (Z.to_nat (0 + 1)) with 1%nat. cbn [firstn strlen].
      rewrite Hc. reflexivity.
    + destruct (strlen rest) as [n |] eqn:Hn; [| discriminate].
      cbn [bind]. intros H. injection H as <-.
      pose proof (strlen_bound _ _ Hn) as Hb.
      replace (Z.to_nat (n + 1 + 1)) with (S (Z.to_nat (n + 1))) by lia.
      cbn [firstn strlen]. rewrite Hc. rewrite (IH n eq_refl). reflexivity.
Qed.

(** X15: when [arena_strdup] is defined and returns an address, the
    [strlen(s) + 1] bytes read there are the bytes of the source up to and
    including its terminator, and [strlen] of the copy is [strlen] of the
    source. *)
Theorem strdup_round_trip
    (oracle : list (option Z)) (a : Arena) (m : memory) (s : list byte)
    (q : Z) (a' : Arena) (m' : memory) (len : Z) :
  strlen s = Done len ->
  len + 1 <= SIZE_MAX ->
  arena_strdup oracle a m s = Done (Some q, a', m') ->
  load m' q (Z.to_nat (len + 1)) = firstn (Z.to_nat (len + 1)) s /\
  strlen (load m' q (Z.to_nat (len + 1))) = Done len.
Proof.
  intros Hlen Hsmall Hdup.
  pose proof (strdup_reads_back _ _ _ _ _ _ _ _ Hlen Hsmall Hdup) as Hload.
  split; [exact Hload |].
  rewrite Hload. apply strlen_firstn. exact Hlen.
Qed.

Lemma strdup_round_trip_witness :
  load (memcpy memory_zero 4121 hello) 4121 (Z.to_nat (5 + 1)) =
    firstn (Z.to_nat (5 + 1)) hello /\
  strlen (load (memcpy memory_zero 4121 hello) 4121 (Z.to_nat (5 + 1))) = Done 5.
Proof.
  apply (strdup_round_trip [] arena_64 memory_zero hello 4121
           (mkArena [mkBlock 4096 64 7] 64 64)
           (memcpy memory_zero 4121 hello) 5).
  - reflexivity.
  - vm_compute. discriminate.
  - reflexivity.
Defined.

(** X16: on an arena that satisfies the invariant, when the string with
    its terminator is served by the current block (no block is created),
    [arena_strdup] is defined, returns the address the allocation
    returned and copies the string there. *)
Theorem strdup_served_by_current_block
    (oracle : list (option Z)) (a : Arena) (m : memory) (s : list byte)
    (len p : Z) (a' : Arena) (b : ArenaBlock) (older : list ArenaBlock) :
  arena_inv a ->
  current a = b :: older ->
  strlen s = Done len ->
  len + 1 <= SIZE_MAX ->
  arena_alloc_align oracle a (len + 1) 1 = (Some p, a') ->
  length (current a') = length (current a) ->
  arena_strdup oracle a m s =
    Done (Some p, a', memcpy m p (firstn (Z.to_nat (len + 1)) s)).
Proof.
  intros Hinv Hc Hlen Hsmall Heq Hsame.
  pose proof (strlen_bound _ _ Hlen) as Hb.
  assert (Hrun : loop_run 1 a (len + 1) (Some p, a')).
  { apply (alloc_with_current_is_loop oracle); [rewrite Hc; discriminate | exact Heq]. }
  destruct (loop_run_same_length _ _ _ _ p b older Hrun Hinv ltac:(lia) ltac:(lia)
              Hc eq_refl Hsame) as (Ha' & Hlo & Hhi).
  cbn [snd] in Ha'.
  unfold arena_strdup. rewrite Hlen. cbn [bind].
  rewrite (to_size_t_id (len + 1)) by lia. rewrite Heq.
  rewrite Ha' at 1. cbn [current].
  rewrite in_live_data_head; [reflexivity | |].
  - destruct Hinv as [Hwf _ _]. rewrite Hc in Hwf.
    inversion Hwf as [| ? ? (_ & _ & _ & Ho) _]; subst.
    unfold data in *. cbn [set_offset addr]. lia.
  - unfold data in *. cbn [set_offset addr capacity]. lia.
Qed.

Lemma strdup_served_by_current_block_witness :
  arena_strdup [] arena_64 memory_zero hello =
    Done (Some 4121, mkArena [mkBlock 4096 64 7] 64 64,
          memcpy memory_zero 4121 (firstn (Z.to_nat (5 + 1)) hello)).
Proof.
  apply (strdup_served_by_current_block [] arena_64 memory_zero hello 5 4121
           (mkArena [mkBlock 4096 64 7] 64 64) (mkBlock 4096 64 0) []).
  - exact arena_64_inv.
  - reflexivity.
  - reflexivity.
  - vm_compute. discriminate.
  - reflexivity.
  - reflexivity.
Defined.

(** ** Initialisation and refusals *)

(** X17: [arena_init] stores the size hint, or 1 for a hint of 0, in
    [default_block_size] whether malloc succeeds or not; the arena it
    leaves has no byte in use and holds either no block, with [reserved]
    0, or one block of exactly that capacity with offset 0, with
    [reserved] equal to it; a hint above [SIZE_MAX - sizeof(ArenaBlock)]
    never gets a block. *)
Theorem arena_init_result (answer : option Z) (a : Arena) (n : Z) :
  let c := if n =? 0 then 1 else n in
  let a' := arena_init answer a n in
  default_block_size a' = c /\
  arena_bytes_used a' = 0 /\
  ((current a' = [] /\ reserved a' = 0) \/
   (exists p, current a' = [mkBlock p c 0] /\ reserved a' = c /\
              c <= SIZE_MAX - SIZEOF_BLOCK)) /\
  (SIZE_MAX - SIZEOF_BLOCK < c -> current a' = []).
Proof.
  intros c a'. subst a'. unfold arena_init.
  destruct (arena__new_block answer (current a) n) as [nb |] eqn:Hnb;
    cbn [current default_block_size reserved].
  - pose proof (new_block_offset _ _ _ _ Hnb) as Hoff.
    destruct (new_block_capacity _ _ _ _ Hnb) as (Hcap & Hmax & _).
    fold c in Hcap.
    split; [reflexivity |]. split; [| split].
    + unfold arena_bytes_used. cbn [current fold_left]. rewrite Hoff. reflexivity.
    + right. exists (addr nb). destruct nb as [p cap off]. cbn in *. subst.
      repeat split. exact Hmax.
    + intros Hbig. rewrite Hcap in Hmax. lia.
  - repeat split; auto.
Qed.

(** X18: a request that is larger than the capacity of the current block
    and whose size plus alignment slack does not fit in [size_t] is
    refused, for a non-zero alignment: the call returns NULL, asks malloc
    for nothing and leaves the arena exactly as it was. *)
Theorem alloc_oversize_refused
    (oracle : list (option Z)) (a : Arena) (size align : Z)
    (b : ArenaBlock) (older : list ArenaBlock) :
  current a = b :: older ->
  align <> 0 ->
  SIZE_MAX - (align - 1) < size ->
  capacity b < size ->
  arena_alloc_align oracle a size align = (None, a).
Proof.
  intros Hc Hal Hover Hbig. unfold arena_alloc_align.
  destruct (size =? 0); [reflexivity |].
  rewrite Hc. rewrite alloc_loop_eq, Hc. cbv zeta.
  destruct (_ =? 0); [reflexivity |].
  set (off := to_size_t _).
  pose proof (to_size_t_range
                (arena__align_up_ptr (to_size_t (data b + offset b)) align - data b))
    as Hoff. fold off in Hoff.
  replace ((off <=? capacity b) && (capacity b - off >=? size)) with false.
  - apply Z.eqb_neq in Hal. rewrite Hal. cbn [negb andb].
    destruct (Z.gtb_spec size (SIZE_MAX - (align - 1))); [reflexivity | lia].
  - symmetry. apply andb_false_iff. right.
    destruct (Z.geb_spec (capacity b - off) size); [lia | reflexivity].
Qed.

Lemma alloc_oversize_refused_witness :
  arena_alloc_align [Some 8192] arena_64 (SIZE_MAX - 3) 8 = (None, arena_64).
Proof.
  apply (alloc_oversize_refused [Some 8192] arena_64 (SIZE_MAX - 3) 8
           (mkBlock 4096 64 0) []).
  - reflexivity.
  - discriminate.
  - vm_compute. reflexivity.
  - vm_compute. reflexivity.
Defined.

(** ** Sequences of calls without undefined behaviour *)

Lemma defined_run_accounting_witness :
  arena_bytes_used (mkArena [mkBlock 8192 64 8; mkBlock 4096 64 0] 64 128) <=
    arena_bytes_reserved (mkArena [mkBlock 8192 64 8; mkBlock 4096 64 0] 64 128) /\
  reserved (mkArena [mkBlock 8192 64 8; mkBlock 4096 64 0] 64 128) =
    sum_capacity (current (mkArena [mkBlock 8192 64 8; mkBlock 4096 64 0] 64 128)).
Proof.
  apply (defined_run_accounting
           [Init (Some 4096) 64; Alloc [Some 8192] 1000 1; Strdup [] hello]
           memory_zero
           (mkArena [mkBlock 8192 64 8; mkBlock 4096 64 0] 64 128)
           (memcpy memory_zero 8218 hello)).
  reflexivity.
Defined.

(** X20: after every sequence of calls from the zero-valued arena that
    meets no undefined behaviour, every block of the chain has a non-null
    address, lies inside the address space, has a capacity of at least one
    byte and an offset between 0 and its capacity, and the blocks are
    pairwise disjoint. *)
Theorem defined_run_blocks (ops : list op) (m : memory) (a : Arena) (m' : memory) :
  run ops (arena_zero, m) = Done (a, m') ->
  Forall block_wf (current a) /\ chain_disjoint (current a).
Proof.
  intros Hrun.
  destruct (run_inv ops _ _ _ _ Hrun arena_inv_zero) as [Hwf Hdis _].
  split; assumption.
Qed.

Lemma defined_run_blocks_witness :
  Forall block_wf (current (mkArena [mkBlock 8192 64 8; mkBlock 4096 64 0] 64 128)) /\
  chain_disjoint (current (mkArena [mkBlock 8192 64 8; mkBlock 4096 64 0] 64 128)).
Proof.
  apply (defined_run_blocks
           [Init (Some 4096) 64; Alloc [Some 8192] 1000 1; Strdup [] hello]
           memory_zero
           (mkArena [mkBlock 8192 64 8; mkBlock 4096 64 0] 64 128)
           (memcpy memory_zero 8218 hello)).
  reflexivity.
Defined.

Lemma reset_one_block_accounting_witness :
  exists a',
    arena_reset (mkArena [mkBlock 4096 64 18] 64 64) = Done a' /\
    current a' = [set_offset (mkBlock 4096 64 18) 0] /\
    arena_bytes_used a' = 0 /\
    arena_bytes_reserved a' = capacity (mkBlock 4096 64 18).
Proof.
  apply (reset_one_block_accounting (mkBlock 4096 64 18) 64 64).
  pose proof (alloc_inv [] arena_64 10 16 ltac:(lia) ltac:(lia) arena_64_inv) as H.
  exact H.
Defined.

(** ** The demonstration program *)

Lemma arena_init_accepted (p n : Z) :
  0 < p -> 0 < n <= SIZE_MAX - SIZEOF_BLOCK ->
  p + SIZEOF_BLOCK + n <= UINTPTR_MAX ->
  arena_init (Some p) arena_zero n = mkArena [mkBlock p n 0] n n.
Proof.
  intros Hp Hn Hend. unfold arena_init, arena__new_block, malloc.
  cbn [current arena_zero region_free forallb].
  destruct (Z.eqb_spec n 0); [lia |].
  destruct (Z.gtb_spec n (SIZE_MAX - SIZEOF_BLOCK)); [lia |].
  destruct (Z.ltb_spec 0 p); [| lia].
  destruct (Z.leb_spec (p + (SIZEOF_BLOCK + n)) UINTPTR_MAX); [| lia].
  reflexivity.
Qed.

(** The result of a call that the current block can serve. *)
Lemma alloc_bump
    (oracle : list (option Z)) (a : Arena) (size align : Z)
    (b : ArenaBlock) (older : list ArenaBlock) (p : Z) :
  current a = b :: older ->
  block_wf b -> 0 <= align -> 0 < size ->
  p = data b + offset b +
        (effective_align align - (data b + offset b) mod effective_align align) ->
  p - data b + size <= capacity b ->
  arena_alloc_align oracle a size align =
    (Some p,
     mkArena (set_offset b (p - data b + size) :: older)
             (default_block_size a) (reserved a)).
Proof.
  intros Hc Hb Hal Hsize Hp Hfit.
  pose proof Hb as (Ha & Hend & Hcap & Ho).
  assert (Hbase : to_size_t (data b + offset b) = data b + offset b).
  { apply to_size_t_id. unfold data, SIZEOF_BLOCK, UINTPTR_MAX, SIZE_MAX in *. lia. }
  assert (Hbase0 : 0 <= data b + offset b) by (unfold data, SIZEOF_BLOCK; lia).
  destruct (align_up_characterisation (data b + offset b) align Hbase0 Hal)
    as (_ & Hnext & Heq).
  cbv zeta in Hnext, Heq. rewrite <- Hp in Hnext, Heq.
  assert (Hal_eq : arena__align_up_ptr (to_size_t (data b + offset b)) align = p).
  { rewrite Hbase, Heq.
    destruct (Z.gtb_spec p UINTPTR_MAX); [| reflexivity].
    unfold data, SIZEOF_BLOCK in *. lia. }
  assert (Hoff : to_size_t (p - data b) = p - data b).
  { apply to_size_t_id. unfold data, SIZEOF_BLOCK, UINTPTR_MAX, SIZE_MAX in *. lia. }
  unfold arena_alloc_align.
  destruct (Z.eqb_spec size 0); [lia |].
  rewrite Hc. rewrite alloc_loop_eq, Hc. cbv zeta.
  rewrite Hal_eq, Hoff.
  destruct (Z.eqb_spec p 0); [unfold data, SIZEOF_BLOCK in *; lia |].
  destruct (Z.leb_spec (p - data b) (capacity b)); [| lia].
  destruct (Z.geb_spec (capacity b - (p - data b)) size); [| lia].
  cbn [andb].
  rewrite to_size_t_id
    by (unfold data, SIZEOF_BLOCK, UINTPTR_MAX, SIZE_MAX in *; lia).
  reflexivity.
Qed.

Lemma alloc_default_with_current
    (oracle : list (option Z)) (a : Arena) (size align : Z) :
  current a <> [] ->
  default_block_size (snd (arena_alloc_align oracle a size align)) =
    default_block_size a.
Proof.
  intros Hne.
  destruct (arena_alloc_align_path oracle a size align)
    as [Hs | Hs Hc Hc1 | res Hs Hc Hc1 Hrun | res Hs Hc Hrun]; try congruence.
  - reflexivity.
  - eapply loop_run_default; eassumption.
Qed.

Lemma multiple_of_16_mod_4 (p : Z) : p mod 16 = 0 -> (p + 24) mod 4 = 0.
Proof.
  intros H. pose proof (Z.div_mod p 16 ltac:(lia)) as Hd.
  replace (p + 24) with ((4 * (p / 16) + 6) * 4) by lia.
  apply Z.mod_mul. lia.
Qed.

(** X22: whenever the first call to malloc succeeds and returns a block
    aligned to 16 bytes, the demonstration program has defined behaviour
    and prints [4020 used / 65536 reserved], whatever malloc answers when
    the scratch region is requested: the release gives back everything
    allocated after the mark. *)
Theorem main_prints
    (p1 : Z) (o_xs o_name o_scratch : list (option Z)) (m : memory) :
  0 < p1 ->
  p1 + SIZEOF_BLOCK + 65536 <= UINTPTR_MAX ->
  p1 mod 16 = 0 ->
  main (Some p1) o_xs o_name o_scratch m = Done (4020, 65536).
Proof.
  intros Hp Hend Hal16.
  assert (Hwf : forall o, 0 <= o <= 65536 -> block_wf (mkBlock p1 65536 o)).
  { intros o Ho. unfold block_wf, data. cbn [addr capacity offset]. lia. }
  set (a1 := mkArena [mkBlock p1 65536 0] 65536 65536).
  set (a2 := mkArena [mkBlock p1 65536 4004] 65536 65536).
  assert (Hxs : arena_alloc_align o_xs a1 4000 4 = (Some (p1 + 28), a2)).
  { rewrite (alloc_bump o_xs a1 4000 4 (mkBlock p1 65536 0) [] (p1 + 28) eq_refl
               (Hwf 0 ltac:(lia)) ltac:(lia) ltac:(lia)).
    - unfold a2, set_offset, data, SIZEOF_BLOCK. cbn [addr capacity a1
        default_block_size reserved].
      replace (p1 + 28 - (p1 + 24) + 4000) with 4004 by lia. reflexivity.
    - unfold data, effective_align, SIZEOF_BLOCK. cbn [addr offset Z.eqb].
      rewrite Z.add_0_r, (multiple_of_16_mod_4 p1 Hal16). lia.
    - unfold data, SIZEOF_BLOCK. cbn [addr capacity]. lia. }
  assert (Hname : arena_alloc_align o_name a2 15 1 =
                    (Some (p1 + 4029), mkArena [mkBlock p1 65536 4020] 65536 65536)).
  { rewrite (alloc_bump o_name a2 15 1 (mkBlock p1 65536 4004) [] (p1 + 4029) eq_refl
               (Hwf 4004 ltac:(lia)) ltac:(lia) ltac:(lia)).
    - unfold set_offset, data, SIZEOF_BLOCK. cbn [addr capacity a2
        default_block_size reserved].
      replace (p1 + 4029 - (p1 + 24) + 15) with 4020 by lia. reflexivity.
    - unfold data, effective_align, SIZEOF_BLOCK. cbn [addr offset Z.eqb].
      rewrite Z.mod_1_r. lia.
    - unfold data, SIZEOF_BLOCK. cbn [addr capacity]. lia. }
  unfold main.
  change (64 * 1024) with 65536.
  rewrite (arena_init_accepted p1 65536 Hp
             ltac:(unfold SIZE_MAX, SIZEOF_BLOCK; lia) Hend).
  fold a1.
  (* xs = ARENA_ALLOC_N(&a, int, 1000) *)
  unfold ARENA_ALLOC_N at 1.
  change (to_size_t (4 * 1000)) with 4000. rewrite Hxs.
  change (4 * 1000) with 4000.
  unfold a2 at 1. cbn [current].
  rewrite in_live_data_head
    by (unfold data, SIZEOF_BLOCK; cbn [addr capacity]; lia).
  (* name = arena_strdup(&a, "blah blah blah") *)
  unfold arena_strdup.
  change (strlen blah) with (@Done Z 14). cbn [bind].
  change (to_size_t (14 + 1)) with 15. rewrite Hname.
  cbn [current].
  rewrite in_live_data_head
    by (unfold data, SIZEOF_BLOCK; cbn [addr capacity]; lia).
  cbn [bind fst snd].
  set (a3 := mkArena [mkBlock p1 65536 4020] 65536 65536).
  assert (Hinv3 : arena_inv a3).
  { split; cbn [a3 current reserved].
    - constructor; [apply Hwf; lia | constructor].
    - split; [reflexivity | exact I].
    - reflexivity. }
  (* scratch = ARENA_ALLOC_N(&a, double, 1 << 20) *)
  unfold ARENA_ALLOC_N.
  change (to_size_t (8 * 2 ^ 20)) with 8388608.
  pose proof (alloc_inv o_scratch a3 8388608 8 ltac:(lia) ltac:(lia) Hinv3) as Hinv4.
  pose proof (alloc_holds_mark o_scratch a3 8388608 8 (mkBlock p1 65536 4020) []
                ltac:(lia) ltac:(cbn; lia)
                ltac:(exists [], 4020; split; [reflexivity | constructor])) as Hm4.
  pose proof (alloc_default_with_current o_scratch a3 8388608 8
                ltac:(discriminate)) as Hd4.
  destruct (arena_alloc_align o_scratch a3 8388608 8) as [scratch a4].
  cbn [snd] in Hinv4, Hm4, Hd4.
  (* arena_release(&a, m) *)
  pose proof (release_restores_marked a4 (mkBlock p1 65536 4020) [] Hinv4 Hm4
                ltac:(cbn; lia)) as Hrel.
  cbn [addr offset] in Hrel.
  change (arena_mark a3) with (mkMark (Some p1) 4020).
  rewrite Hrel. cbn [bind]. rewrite Hd4. reflexivity.
Qed.

Lemma main_prints_witness :
  main (Some 4096) [] [] [Some 1048576] memory_zero = Done (4020, 65536).
Proof.
  apply (main_prints 4096 [] [] [Some 1048576] memory_zero).
  - lia.
  - vm_compute. discriminate.
  - reflexivity.
Defined.

(** ** Release only frees *)

(** X23: on an arena that satisfies the invariant, [arena_release] with
    any mark whose offset is a [size_t] creates no block and reorders
    none: the chain it leaves is a suffix of the chain it was given, in
    which at most the offset of the first block has changed, and
    [bytes_reserved()] has not increased. *)
Theorem release_only_frees (a : Arena) (m : ArenaMark) :
  arena_inv a ->
  0 <= mark_offset m ->
  exists a' pre rest,
    arena_release a m = Done a' /\
    current a = pre ++ rest /\
    (current a' = rest \/
     exists b prev o, rest = b :: prev /\ current a' = set_offset b o :: prev) /\
    arena_bytes_reserved a' = arena_bytes_reserved a - sum_capacity pre /\
    arena_bytes_reserved a' <= arena_bytes_reserved a.
Proof.
  intros Hinv Hm.
  pose proof Hinv as [Hwf Hdis Hres].
  pose proof (sum_capacity_range _ Hwf Hdis) as Hrange.
  unfold arena_release, arena_bytes_reserved.
  destruct (current a) as [| b0 older0] eqn:Hc.
  - exists a, [], []. rewrite Hc. cbn [sum_capacity fold_right].
    repeat split; auto; lia.
  - rewrite <- Hc in *.
    destruct (release_loop_stops (current a) (block m) (reserved a))
      as (pre & rest & Hchain & _ & _ & ->).
    cbn [bind fst snd].
    assert (Hdrop : drop_capacities pre (reserved a) = reserved a - sum_capacity pre).
    { rewrite drop_capacities_sum by lia.
      rewrite Hres, Hchain, sum_capacity_app.
      rewrite Hchain in Hwf, Hdis.
      apply Forall_app in Hwf as [_ Hrest].
      pose proof (sum_capacity_range _ Hrest (chain_disjoint_suffix _ _ Hdis)).
      rewrite Hchain, sum_capacity_app in Hrange.
      apply to_size_t_id. lia. }
    assert (Hpre : 0 <= sum_capacity pre).
    { rewrite Hchain in Hwf. apply Forall_app in Hwf as [Hp _].
      clear -Hp. induction Hp as [| x l (_ & _ & Hx & _) _ IH]; simpl; lia. }
    destruct rest as [| b prev].
    + eexists. exists pre, [].
      split; [reflexivity |]. cbn [current reserved].
      split; [exact Hchain |]. split; [left; reflexivity | lia].
    + destruct (ptr_eqb (Some (addr b)) (block m)).
      * eexists. exists pre, (b :: prev).
        split; [reflexivity |]. cbn [current reserved].
        split; [exact Hchain |]. split; [| lia].
        right. do 3 eexists. split; reflexivity.
      * eexists. exists pre, (b :: prev).
        split; [reflexivity |]. cbn [current reserved].
        split; [exact Hchain |]. split; [left; reflexivity | lia].
Qed.

Lemma arena_two_blocks_inv : arena_inv arena_two_blocks.
Proof.
  apply (alloc_inv [Some 8192] arena_64 1000 1); try lia. exact arena_64_inv.
Qed.

Lemma release_only_frees_witness :
  exists a' pre rest,
    arena_release arena_two_blocks (mkMark (Some 4096) 10) = Done a' /\
    current arena_two_blocks = pre ++ rest /\
    (current a' = rest \/
     exists b prev o, rest = b :: prev /\ current a' = set_offset b o :: prev) /\
    arena_bytes_reserved a' = arena_bytes_reserved arena_two_blocks - sum_capacity pre /\
    arena_bytes_reserved a' <= arena_bytes_reserved arena_two_blocks.
Proof.
  apply (release_only_frees arena_two_blocks (mkMark (Some 4096) 10)).
  - exact arena_two_blocks_inv.
  - cbn. lia.
Defined.
